(** * retrowin32 web debugger: the host-side driver

    A shallow embedding of the [VM], [Surface] and [Window] classes of the
    web front end, and of the earlier revision of [VM.step], together with
    the properties of the driver that the design document states.

    JavaScript numbers that the code computes with (the batch size, the
    clock readings, the moving average) are IEEE-754 binary64 values and are
    modelled by Rocq's primitive floats.  Guest addresses and exit codes are
    integers and are modelled in [Z]. *)

From Stdlib Require Import ZArith Floats.
From stdpp Require Import gmap strings list.

Set Default Proof Using "Type".
#[local] Set Warnings "-clear-no-such-hyp".

(** ** JavaScript control: state passing with exceptions

    A method is a function from the state before the call to the state
    after it and either a returned value or a thrown error.  A throw keeps
    the state reached so far, so that what a failed call leaves behind is
    part of the model. *)

Inductive JsError :=
  | TypeError              (* a property of [undefined] was read or written *)
  | RangeError             (* [TypedArray.set]: the source does not fit *)
  | DOMException (name : string)  (* thrown by a canvas call *)
  | Error (msg : string).  (* [throw new Error(msg)] *)

Inductive Result (A : Type) :=
  | Ok (a : A)
  | Throw (e : JsError).
Arguments Ok {A} a.
Arguments Throw {A} e.

Definition M (S A : Type) : Type := S → S * Result A.

Definition ret {S A} (a : A) : M S A := λ s, (s, Ok a).
Definition throw {S A} (e : JsError) : M S A := λ s, (s, Throw e).
Definition bind {S A B} (c : M S A) (k : A → M S B) : M S B :=
  λ s, match c s with
       | (s', Ok a) => k a s'
       | (s', Throw e) => (s', Throw e)
       end.
Definition gets {S A} (f : S → A) : M S A := λ s, (s, Ok (f s)).
Definition modify {S} (f : S → S) : M S unit := λ s, (f s, Ok tt).

Notation "x <- c1 ;; c2" := (bind c1 (λ x, c2))
  (at level 100, c1 at next level, right associativity).
Notation "c1 ;; c2" := (bind c1 (λ _, c2))
  (at level 100, right associativity).

(** Optional boolean fields ([disabled?: boolean]) and their truthiness. *)
Definition truthy (b : option bool) : bool := default false b.

(** ** Display: surfaces over canvases *)

Module wasm.
(** [wasm.SurfaceOptions], as [create_surface] destructures it.  The
    sizes are unsigned integers, and zero is one of them. *)
Record SurfaceOptions := {
  width : nat;
  height : nat;
  primary : bool;
}.
End wasm.

Record Pixel := RGBA {
  px_red : Byte.byte;
  px_green : Byte.byte;
  px_blue : Byte.byte;
  px_alpha : Byte.byte;
}.

(** The bitmap of an [HTMLCanvasElement]: [canvas_height] rows of
    [canvas_width] pixels, each as [getImageData] reads it back.  Either
    size may be zero. *)
Record Canvas := {
  canvas_width : nat;
  canvas_height : nat;
  bitmap : list (list Pixel);
}.

Definition black : Pixel := RGBA Byte.x00 Byte.x00 Byte.x00 Byte.xff.
Definition transparent : Pixel := RGBA Byte.x00 Byte.x00 Byte.x00 Byte.x00.

Definition pixel_bytes (p : Pixel) : list Byte.byte :=
  [px_red p; px_green p; px_blue p; px_alpha p].

(** What [getImageData] over the whole canvas would read. *)
Definition canvas_bytes (c : Canvas) : list Byte.byte :=
  concat (bitmap c) ≫= pixel_bytes.

Fixpoint to_pixels (data : list Byte.byte) : list Pixel :=
  match data with
  | r :: g :: b :: a :: data' => RGBA r g b a :: to_pixels data'
  | _ => []
  end.

Fixpoint to_rows (h w : nat) (ps : list Pixel) : list (list Pixel) :=
  match h with
  | O => []
  | S h' => take w ps :: to_rows h' w (drop w ps)
  end.

(** Setting [canvas.width] and [canvas.height] clears the bitmap to
    transparent black; [fillRect(0, 0, 640, 480)] with a black fill style
    then paints the part of it inside that rectangle. *)
Definition filled (x y : nat) : Pixel :=
  if (x <? 640)%nat && (y <? 480)%nat then black else transparent.

Definition new_canvas (w h : nat) : Canvas :=
  {| canvas_width := w;
     canvas_height := h;
     bitmap := (λ y, (λ x, filled x y) <$> seq 0 w) <$> seq 0 h |}.

(** What the model leaves to the browser: how source-over compositing
    rounds a translucent pixel onto another, how a translucent pixel reads
    back after the canvas has stored it, and how [TextDecoder.decode]
    turns bytes into text. *)
Class Browser := {
  blend : Pixel → Pixel → Pixel;
  quantize : Pixel → Pixel;
  decode : list Byte.byte → string;
}.

(** A canvas keeps its pixels premultiplied by alpha.  An opaque pixel
    reads back as written; a fully transparent one has lost its colour
    and reads back as transparent black; one in between reads back
    rounded, as the browser does it. *)
Definition stored `{Browser} (p : Pixel) : Pixel :=
  if Byte.eqb (px_alpha p) Byte.xff then p
  else if Byte.eqb (px_alpha p) Byte.x00 then transparent
  else quantize p.

(** [new ImageData(w, h)] followed by [data.data.set(pixels)]: the
    constructor throws when a size is zero; otherwise it gives a zeroed
    array of [4*w*h] bytes, whose prefix is overwritten; [set] throws when
    the source is longer than the array. *)
Definition image_size (c : Canvas) : nat :=
  4 * canvas_width c * canvas_height c.

Definition ImageData_set (c : Canvas) (pixels : list Byte.byte)
  : Result (list Byte.byte) :=
  if (canvas_width c =? 0)%nat || (canvas_height c =? 0)%nat
  then Throw (DOMException "IndexSizeError")
  else if (image_size c <? length pixels)%nat then Throw RangeError
  else Ok (pixels ++ replicate (image_size c - length pixels) Byte.x00).

(** [ctx.putImageData(data, 0, 0)]: the bitmap becomes [data], as the
    canvas stores it. *)
Definition putImageData `{Browser} (data : list Byte.byte) (c : Canvas)
  : Canvas :=
  {| canvas_width := canvas_width c;
     canvas_height := canvas_height c;
     bitmap := to_rows (canvas_height c) (canvas_width c)
                 (stored <$> to_pixels data) |}.

(** [Surface] objects live in the JavaScript heap and are shared by
    reference: [get_attached] hands out the very back buffer that [flip]
    later reads. *)
Abbreviation SurfaceRef := nat.

Record Surface := {
  canvas : Canvas;
  back : option SurfaceRef;
}.

Abbreviation Heap := (list Surface).

Section Display.

Context {browser : Browser}.

(** The default compositing of [drawImage]: an opaque source pixel
    replaces the destination, a fully transparent one leaves it. *)
Definition over (src dst : Pixel) : Pixel :=
  if Byte.eqb (px_alpha src) Byte.xff then src
  else if Byte.eqb (px_alpha src) Byte.x00 then dst
  else blend src dst.

Fixpoint over_row (src dst : list Pixel) : list Pixel :=
  match dst, src with
  | d :: dst', s :: src' => over s d :: over_row src' dst'
  | _, _ => dst
  end.

Fixpoint over_rows (src dst : list (list Pixel)) : list (list Pixel) :=
  match dst, src with
  | d :: dst', s :: src' => over_row s d :: over_rows src' dst'
  | _, _ => dst
  end.

(** [dst.getContext('2d').drawImage(src, 0, 0)]: a source canvas without
    pixels makes the call throw; otherwise the source is drawn over [dst],
    and the part of it outside [dst] is clipped. *)
Definition drawImage (src dst : Canvas) : Result Canvas :=
  if (canvas_width src =? 0)%nat || (canvas_height src =? 0)%nat
  then Throw (DOMException "InvalidStateError")
  else Ok {| canvas_width := canvas_width dst;
             canvas_height := canvas_height dst;
             bitmap := over_rows (bitmap src) (bitmap dst) |}.

Definition alloc (s : Surface) : M Heap SurfaceRef :=
  λ heap, (heap ++ [s], Ok (length heap)).

(** A reference always designates a live object in JavaScript; the
    model reports a dangling one as a call on [undefined]. *)
Definition deref (r : SurfaceRef) : M Heap Surface :=
  λ heap, match heap !! r with
          | Some s => (heap, Ok s)
          | None => (heap, Throw TypeError)
          end.

Definition set_canvas (r : SurfaceRef) (c : Canvas) : M Heap unit :=
  modify (alter (λ s, {| canvas := c; back := back s |}) r).

Definition lift {S A} (r : Result A) : M S A := λ s, (s, r).

(** [new Surface(width, height, primary)].  The constructor recurses once,
    with [primary = false], to build the back buffer; the back buffer gets
    the lower reference. *)
Definition new_Surface (w h : nat) (primary : bool)
  : M Heap SurfaceRef :=
  b <- (if primary
        then (r <- alloc {| canvas := new_canvas w h; back := None |} ;;
              ret (Some r))
        else ret None) ;;
  alloc {| canvas := new_canvas w h; back := b |}.

Definition write_pixels (this : SurfaceRef) (pixels : list Byte.byte)
  : M Heap unit :=
  s <- deref this ;;
  data <- lift (ImageData_set (canvas s) pixels) ;;
  set_canvas this (putImageData data (canvas s)).

Definition get_attached (this : SurfaceRef) : M Heap SurfaceRef :=
  s <- deref this ;;
  match back s with
  | None => throw (Error "no back for attached")
  | Some b => ret b
  end.

Definition flip (this : SurfaceRef) : M Heap unit :=
  s <- deref this ;;
  match back s with
  | None => throw (Error "no back for flip")
  | Some b =>
      sb <- deref b ;;
      c <- lift (drawImage (canvas sb) (canvas s)) ;;
      set_canvas this c
  end.

(** The bytes of a surface's canvas, when the reference is live. *)
Definition contents (heap : Heap) (r : SurfaceRef) : option (list Byte.byte) :=
  (λ s, canvas_bytes (canvas s)) <$> heap !! r.

End Display.

(** ** Breakpoints and windows *)

(** [Breakpoint] of [break.tsx], as the driver builds and reads it:
    [{ addr: 0x40a3a5 }], [{ addr, oneShot: true }], [bp.disabled]. *)
Record Breakpoint := {
  addr : Z;
  disabled : option bool;
  oneShot : option bool;
}.

Record Window := {
  key : nat;
  title : string;
  width : Z;
  height : Z;
  surface : option SurfaceRef;
}.

Definition new_Window (key : nat) : Window :=
  {| key := key; title := ""; width := 0; height := 0; surface := None |}.

Abbreviation WindowRef := nat.

(** [window.surface = surface] *)
Definition set_surface (s : SurfaceRef) (w : Window) : Window :=
  {| key := key w; title := title w; width := width w; height := height w;
     surface := Some s |}.

(** [array[i]] for a computed index: a negative or too large index reads
    [undefined]. *)
Definition array_get {A} (l : list A) (i : Z) : option A :=
  if (i <? 0)%Z then None else l !! Z.to_nat i.

(** The part of [Page]'s state that the driver writes. *)
Record PageState := {
  page_stdout : string;
  selectedTab : string;
}.

(** ** The execution engine

    The engine is reached through [wasm.Emulator] and is opaque.  While it
    runs it calls back into the host ([JsHost]); a run is the sequence of
    those calls, each with the machine state it would leave behind if the
    call threw, and the machine state at the end.  What the host returns
    is not fed back into the run: the properties below hold for every
    engine, hence for every run that an engine can make. *)

Inductive HostCall :=
  | HostExit (code : Z)
  | HostWrite (buf : list Byte.byte)
  | HostTime
  | HostCreateWindow
  | HostCreateSurface (opts : wasm.SurfaceOptions).

Record Run (Cpu : Type) := {
  host_calls : list (Cpu * HostCall);
  final : Cpu;
}.
Arguments host_calls {Cpu} r.
Arguments final {Cpu} r.

Class Engine (Cpu : Type) := {
  (** [emu.eip] *)
  eip : Cpu → Z;
  (** [emu.step()], given the registered break addresses *)
  cpu_step : gset Z → Cpu → Run Cpu;
  (** [emu.step_many(count)]; the flag tells whether the whole batch ran *)
  cpu_step_many : gset Z → float → Cpu → Run Cpu * bool;
}.

(** Modelled from the spec: the engine's own breakpoint registration, "a
    parallel fast-path break set", which [breakpoint_add] and
    [breakpoint_clear] grow and shrink and which stepping leaves alone. *)
Record Emulator (Cpu : Type) := {
  cpu : Cpu;
  break_set : gset Z;
}.
Arguments cpu {Cpu} e.
Arguments break_set {Cpu} e.

Definition breakpoint_add {Cpu} (a : Z) (e : Emulator Cpu) : Emulator Cpu :=
  {| cpu := cpu e; break_set := {[a]} ∪ break_set e |}.

Definition breakpoint_clear {Cpu} (a : Z) (e : Emulator Cpu) : Emulator Cpu :=
  {| cpu := cpu e; break_set := break_set e ∖ {[a]} |}.

Definition with_cpu {Cpu} (c : Cpu) (e : Emulator Cpu) : Emulator Cpu :=
  {| cpu := c; break_set := break_set e |}.

(** ** The driver: class [VM] *)

Record VM (Cpu : Type) := {
  emu : Emulator Cpu;
  breakpoints : gmap Z Breakpoint;
  exitCode : option Z;
  stdout : string;
  page : PageState;
  stepSize : float;
  instrPerMs : float;
  windows : list Window;
  heap : Heap;
}.
Arguments emu {Cpu} v.
Arguments breakpoints {Cpu} v.
Arguments exitCode {Cpu} v.
Arguments stdout {Cpu} v.
Arguments page {Cpu} v.
Arguments stepSize {Cpu} v.
Arguments instrPerMs {Cpu} v.
Arguments windows {Cpu} v.
Arguments heap {Cpu} v.

Section Driver.

Context {Cpu : Type} {engine : Engine Cpu} {browser : Browser}.

Implicit Types (vm : VM Cpu) (bp : Breakpoint) (a : Z).

Definition set_emu (f : Emulator Cpu → Emulator Cpu) vm : VM Cpu :=
  {| emu := f (emu vm); breakpoints := breakpoints vm;
     exitCode := exitCode vm; stdout := stdout vm; page := page vm;
     stepSize := stepSize vm; instrPerMs := instrPerMs vm;
     windows := windows vm; heap := heap vm |}.

Definition set_breakpoints
    (f : gmap Z Breakpoint → gmap Z Breakpoint) vm : VM Cpu :=
  {| emu := emu vm; breakpoints := f (breakpoints vm);
     exitCode := exitCode vm; stdout := stdout vm; page := page vm;
     stepSize := stepSize vm; instrPerMs := instrPerMs vm;
     windows := windows vm; heap := heap vm |}.

Definition set_exitCode (c : option Z) vm : VM Cpu :=
  {| emu := emu vm; breakpoints := breakpoints vm;
     exitCode := c; stdout := stdout vm; page := page vm;
     stepSize := stepSize vm; instrPerMs := instrPerMs vm;
     windows := windows vm; heap := heap vm |}.

Definition set_stdout (s : string) vm : VM Cpu :=
  {| emu := emu vm; breakpoints := breakpoints vm;
     exitCode := exitCode vm; stdout := s; page := page vm;
     stepSize := stepSize vm; instrPerMs := instrPerMs vm;
     windows := windows vm; heap := heap vm |}.

Definition set_page (f : PageState → PageState) vm : VM Cpu :=
  {| emu := emu vm; breakpoints := breakpoints vm;
     exitCode := exitCode vm; stdout := stdout vm; page := f (page vm);
     stepSize := stepSize vm; instrPerMs := instrPerMs vm;
     windows := windows vm; heap := heap vm |}.

Definition set_stepSize (x : float) vm : VM Cpu :=
  {| emu := emu vm; breakpoints := breakpoints vm;
     exitCode := exitCode vm; stdout := stdout vm; page := page vm;
     stepSize := x; instrPerMs := instrPerMs vm;
     windows := windows vm; heap := heap vm |}.

Definition set_instrPerMs (x : float) vm : VM Cpu :=
  {| emu := emu vm; breakpoints := breakpoints vm;
     exitCode := exitCode vm; stdout := stdout vm; page := page vm;
     stepSize := stepSize vm; instrPerMs := x;
     windows := windows vm; heap := heap vm |}.

Definition set_windows (f : list Window → list Window) vm : VM Cpu :=
  {| emu := emu vm; breakpoints := breakpoints vm;
     exitCode := exitCode vm; stdout := stdout vm; page := page vm;
     stepSize := stepSize vm; instrPerMs := instrPerMs vm;
     windows := f (windows vm); heap := heap vm |}.

(** Runs a [Surface] operation on the heap held by the session. *)
Definition on_heap {A} (c : M Heap A) : M (VM Cpu) A :=
  λ vm, let '(h', r) := c (heap vm) in
        ({| emu := emu vm; breakpoints := breakpoints vm;
            exitCode := exitCode vm; stdout := stdout vm; page := page vm;
            stepSize := stepSize vm; instrPerMs := instrPerMs vm;
            windows := windows vm; heap := h' |}, r).

(** *** Breakpoint table *)

Definition addBreak bp : M (VM Cpu) unit :=
  modify (set_breakpoints <[addr bp := bp]>) ;;
  modify (set_emu (breakpoint_add (addr bp))).

Definition delBreak a : M (VM Cpu) unit :=
  modify (set_breakpoints (delete a)) ;;
  modify (set_emu (breakpoint_clear a)).

(** [bp.disabled = !bp.disabled] writes through the object that the map
    holds under [addr]; on a missing entry the read of [bp.disabled]
    throws. *)
Definition toggleBreak a : M (VM Cpu) unit :=
  o <- gets (λ vm, breakpoints vm !! a) ;;
  match o with
  | None => throw TypeError
  | Some bp =>
      let bp' := {| addr := addr bp;
                    disabled := Some (negb (truthy (disabled bp)));
                    oneShot := oneShot bp |} in
      modify (set_breakpoints <[a := bp']>) ;;
      if truthy (disabled bp')
      then modify (set_emu (breakpoint_clear a))
      else modify (set_emu (breakpoint_add a))
  end.

(** *** Host callbacks ([JsHost]) *)

Definition exit (code : Z) : M (VM Cpu) unit :=
  modify (set_exitCode (Some code)).

Definition write (buf : list Byte.byte) : M (VM Cpu) nat :=
  modify (λ vm, set_stdout (stdout vm +:+ decode buf) vm) ;;
  modify (λ vm, set_page (λ p, {| page_stdout := stdout vm;
                                   selectedTab := selectedTab p |}) vm) ;;
  ret (length buf).

Definition create_window : M (VM Cpu) WindowRef :=
  id <- gets (λ vm, length (windows vm) + 1) ;;
  modify (set_windows (λ ws, ws ++ [new_Window id])) ;;
  ret (id - 1).

Definition create_surface (opts : wasm.SurfaceOptions)
  : M (VM Cpu) SurfaceRef :=
  let width := wasm.width opts in
  let height := wasm.height opts in
  let primary := wasm.primary opts in
  surface <- on_heap (new_Surface width height primary) ;;
  (if primary then
     ws <- gets windows ;;
     let last := (Z.of_nat (length ws) - 1)%Z in
     match array_get ws last with
     | None => throw TypeError
     | Some w =>
         modify (set_windows <[Z.to_nat last := set_surface surface w]>)
     end
   else ret tt) ;;
  ret surface.

(** *** Running the engine *)

Definition host_call (h : HostCall) : M (VM Cpu) unit :=
  match h with
  | HostExit code => exit code
  | HostWrite buf => write buf ;; ret tt
  | HostTime => ret tt
  | HostCreateWindow => create_window ;; ret tt
  | HostCreateSurface opts => create_surface opts ;; ret tt
  end.

(** The host calls of a run, in order.  A call that throws unwinds
    through the engine and out of the stepping call. *)
Fixpoint run_calls (calls : list (Cpu * HostCall)) (final : Cpu)
  : M (VM Cpu) unit :=
  match calls with
  | [] => modify (set_emu (with_cpu final))
  | (c, h) :: calls' =>
      modify (set_emu (with_cpu c)) ;;
      host_call h ;;
      run_calls calls' final
  end.

Definition run (r : Run Cpu) : M (VM Cpu) unit :=
  run_calls (host_calls r) (final r).

(** [this.emu.step()] *)
Definition emu_step : M (VM Cpu) unit :=
  e <- gets emu ;;
  run (cpu_step (break_set e) (cpu e)).

(** [this.emu.step_many(count)] *)
Definition emu_step_many (count : float) : M (VM Cpu) bool :=
  e <- gets emu ;;
  let '(r, ranAll) := cpu_step_many (break_set e) count (cpu e) in
  run r ;;
  ret ranAll.

(** *** Stepping *)

(** Check if the current address is a break/exit point, returning true
    if so. *)
Definition checkBreak : M (VM Cpu) bool :=
  code <- gets exitCode ;;
  if bool_decide (code ≠ None) then ret true else
  ip <- gets (λ vm, eip (cpu (emu vm))) ;;
  o <- gets (λ vm, breakpoints vm !! ip) ;;
  match o with
  | Some bp =>
      if negb (truthy (disabled bp)) then
        (if truthy (oneShot bp)
         then delBreak (addr bp)
         else modify (set_page (λ p, {| page_stdout := page_stdout p;
                                         selectedTab := "breakpoints" |}))) ;;
        ret true
      else ret false
  | None => ret false
  end.

Definition step : M (VM Cpu) bool :=
  emu_step ;;
  b <- checkBreak ;;
  ret (negb b).

(** [stepMany()]; [start] and [end_] are the two readings of
    [performance.now()], taken before and after the batch. *)
Definition stepMany (start end_ : float) : M (VM Cpu) bool :=
  size <- gets stepSize ;;
  ranAll <- emu_step_many size ;;
  if negb ranAll then (* Hit breakpoint. *)
    b <- checkBreak ;;
    ret (negb b)
  else
    let delta := (end_ - start)%float in
    modify (λ vm,
      let instrPerMs' := (stepSize vm / delta)%float in
      let alpha := 0.5%float in (* smoothing factor *)
      set_instrPerMs
        (alpha * instrPerMs' + (alpha - 1) * instrPerMs vm)%float vm) ;;
    (if (delta <? 10)%float
     then modify (λ vm, set_stepSize (stepSize vm * 2)%float vm)
     else ret tt) ;;
    ret true.

(** *** Construction and [Page.runTo] *)

(** The field initialisers of [VM], for an engine that has just loaded
    the executable and has no break address registered yet. *)
Definition init (c : Cpu) : VM Cpu :=
  {| emu := {| cpu := c; break_set := ∅ |};
     breakpoints := ∅;
     exitCode := None;
     stdout := "";
     page := {| page_stdout := ""; selectedTab := "output" |};
     stepSize := 5000%float;
     instrPerMs := 0%float;
     windows := [];
     heap := [] |}.

(** The constructor ends with [this.addBreak({ addr: 0x40a3a5 })]. *)
Definition new_VM (c : Cpu) : VM Cpu :=
  (addBreak {| addr := 0x40a3a5; disabled := None; oneShot := None |}
     (init c)).1.

(** The table side of [Page.runTo]. *)
Definition runTo a : M (VM Cpu) unit :=
  addBreak {| addr := a; disabled := None; oneShot := Some true |}.

End Driver.

(** *** Sessions *)

(** What the page and the run loop ask of the driver. *)
Inductive DriverOp :=
  | DoAddBreak (bp : Breakpoint)
  | DoDelBreak (a : Z)
  | DoToggleBreak (a : Z)
  | DoStep
  | DoStepMany (start end_ : float).

Definition driver_op {Cpu} `{Engine Cpu} `{Browser}
    (op : DriverOp) (vm : VM Cpu) : VM Cpu :=
  match op with
  | DoAddBreak bp => (addBreak bp vm).1
  | DoDelBreak a => (delBreak a vm).1
  | DoToggleBreak a => (toggleBreak a vm).1
  | DoStep => (step vm).1
  | DoStepMany start end_ => (stepMany start end_ vm).1
  end.

(** Breakpoints are handed to [addBreak] enabled: the constructor adds
    [{ addr }] and [runTo] adds [{ addr, oneShot: true }]. *)
Definition adds_enabled (op : DriverOp) : Prop :=
  match op with
  | DoAddBreak bp => truthy (disabled bp) = false
  | _ => True
  end.

Definition driver_ops {Cpu} `{Engine Cpu} `{Browser}
    (ops : list DriverOp) (vm : VM Cpu) : VM Cpu :=
  foldl (λ v op, driver_op op v) vm ops.

(** ** The earlier revision of [VM.step]

    Before breakpoints could be disabled, [step] read the table itself and
    a breakpoint to be removed after its hit was marked [temporary]; the
    engine had no break set and the host interface was [exit] and [write]
    only. *)

Module Legacy.

Record Breakpoint := {
  addr : Z;
  temporary : option bool;
}.

Inductive HostCall :=
  | HostExit (code : Z)
  | HostWrite (buf : list Byte.byte).

Class X86 (Cpu : Type) := {
  eip : Cpu → Z;
  (** [x86.step()]: the host calls made, and the machine afterwards *)
  cpu_step : Cpu → list HostCall * Cpu;
}.

Record VM (Cpu : Type) := {
  x86 : Cpu;
  breakpoints : gmap Z Breakpoint;
  exitCode : option Z;
}.
Arguments x86 {Cpu} v.
Arguments breakpoints {Cpu} v.
Arguments exitCode {Cpu} v.

Section Driver.

Context {Cpu : Type} `{X86 Cpu}.

(** [exit] records the code; [write] only logs to the console. *)
Definition host_call (h : HostCall) (vm : VM Cpu) : VM Cpu :=
  match h with
  | HostExit code =>
      {| x86 := x86 vm; breakpoints := breakpoints vm;
         exitCode := Some code |}
  | HostWrite _ => vm
  end.

Definition x86_step (vm : VM Cpu) : VM Cpu :=
  let '(calls, c) := cpu_step (x86 vm) in
  let vm' := foldl (λ v h, host_call h v) vm calls in
  {| x86 := c; breakpoints := breakpoints vm'; exitCode := exitCode vm' |}.

Definition step (vm : VM Cpu) : VM Cpu * bool :=
  let vm := x86_step vm in
  if bool_decide (exitCode vm ≠ None) then (vm, false) else
  match breakpoints vm !! eip (x86 vm) with
  | Some bp =>
      (if truthy (temporary bp)
       then {| x86 := x86 vm;
               breakpoints := delete (addr bp) (breakpoints vm);
               exitCode := exitCode vm |}
       else vm, false)
  | None => (vm, true)
  end.

(** The table side of [Page.runTo]. *)
Definition runTo (a : Z) (vm : VM Cpu) : VM Cpu :=
  {| x86 := x86 vm;
     breakpoints := <[a := {| addr := a; temporary := Some true |}]>
                      (breakpoints vm);
     exitCode := exitCode vm |}.

End Driver.

End Legacy.

(** ** The earlier [Page]: running in a loop

    [Page.run] steps until [step] reports "stopped"; [runTo] plants a
    temporary breakpoint first.  The loop need not end, so the model counts
    the steps it may take: [None] is a loop still running after [fuel]
    steps. *)

Module LegacyPage.

Section Page.

Context {Cpu : Type} `{Legacy.X86 Cpu}.

Fixpoint run (fuel : nat) (vm : Legacy.VM Cpu) : option (Legacy.VM Cpu) :=
  match fuel with
  | O => None
  | S fuel' =>
      let '(vm', continue) := Legacy.step vm in
      if continue then run fuel' vm' else Some vm'
  end.

Definition runTo (fuel : nat) (a : Z) (vm : Legacy.VM Cpu)
  : option (Legacy.VM Cpu) :=
  run fuel (Legacy.runTo a vm).

End Page.

End LegacyPage.

(** ** The stack panel ([stack.tsx])

    [Stack.render] reads twelve words around [esp] from the engine's memory
    and looks each one up in the label map.  A row of the panel is kept as
    the values the JSX is built from. *)

Definition byte_value (b : Byte.byte) : Z := Z.of_N (Byte.to_N b).

(** The little-endian value of a run of bytes. *)
Fixpoint le_value (bs : list Byte.byte) : Z :=
  match bs with
  | [] => 0
  | b :: bs' => byte_value b + 256 * le_value bs'
  end.

(** [memory.getUint32(byteOffset, true)] on a [DataView]: an offset that is
    negative, or less than four bytes before the end, throws. *)
Definition getUint32 (memory : list Byte.byte) (byteOffset : Z) : Result Z :=
  if (byteOffset <? 0)%Z || (Z.of_nat (length memory) <? byteOffset + 4)%Z
  then Throw RangeError
  else Ok (le_value (take 4 (drop (Z.to_nat byteOffset) memory))).

Record StackRow := {
  row_addr : Z;
  row_value : Z;
  row_label : option string;
  row_bold : bool;
}.

Module Stack.

(** [let label = labels.get(value); if (label) label = ` ${label}`]: a
    missing label stays [undefined] and an empty one stays empty.  The map
    is read at integers only, so its keys are kept as integers. *)
Definition label (labels : gmap Z string) (value : Z) : option string :=
  match labels !! value with
  | Some l => if bool_decide (l = "") then Some l else Some (" " +:+ l)
  | None => None
  end.

(** The loop [for (addr = esp - 0x10; addr < esp + 0x20; addr += 4)], from
    [addr] on.  [fuel] bounds the iterations; the distance to the upper
    bound is always enough. *)
Fixpoint rows (fuel : nat) (esp : Z) (memory : list Byte.byte)
    (labels : gmap Z string) (addr : Z) : Result (list StackRow) :=
  if (addr <? esp + 0x20)%Z then
    match fuel with
    | O => Ok []
    | S fuel' =>
        match getUint32 memory addr with
        | Throw e => Throw e
        | Ok value =>
            match rows fuel' esp memory labels (addr + 4) with
            | Throw e => Throw e
            | Ok rest =>
                Ok ({| row_addr := addr; row_value := value;
                       row_label := label labels value;
                       row_bold := bool_decide (addr = esp) |} :: rest)
            end
        end
    end
  else Ok [].

Definition render (esp : Z) (memory : list Byte.byte)
    (labels : gmap Z string) : Result (list StackRow) :=
  let addr := (esp - 0x10)%Z in
  rows (Z.to_nat (esp + 0x20 - addr)) esp memory labels addr.

End Stack.

(** ** Loading labels ([loadLabels])

    The label file has one [name<TAB>address] line per symbol.  Numbers and
    [parseInt] belong to the JavaScript engine and stay abstract: [number]
    stands for the values a [Map] tells apart. *)

Class Globals := {
  number : Type;
  number_eq_dec :: EqDecision number;
  number_countable :: Countable number;
  (** [parseInt(s, radix)]; [None] is [undefined] *)
  parseInt : option string → Z → number;
}.

Definition TAB : Ascii.ascii := Ascii.ascii_of_nat 9.  (* '\t' *)
Definition LF : Ascii.ascii := Ascii.ascii_of_nat 10.  (* '\n' *)

(** [s.split(sep)] for a separator of one character: never empty. *)
Fixpoint split (sep : Ascii.ascii) (s : string) : list string :=
  match s with
  | EmptyString => [EmptyString]
  | String c s' =>
      if bool_decide (c = sep) then EmptyString :: split sep s'
      else match split sep s' with
           | x :: xs => String c x :: xs
           | [] => [String c EmptyString]
           end
  end.

(** What [fetch] resolved to: [resp.ok] and [resp.text()]. *)
Record Response := {
  ok : bool;
  text : string;
}.

Section Labels.

Context `{Globals}.

(** The body of the loop over the lines: [const [name, addr] =
    line.split('\t'); labels.set(parseInt(addr, 16), name)]. *)
Definition set_label (labels : gmap number string) (line : string)
  : gmap number string :=
  let fields := split TAB line in
  let name := default EmptyString (fields !! 0) in
  let addr := fields !! 1 in
  <[parseInt addr 16 := name]> labels.

Definition loadLabels (resp : Response) : gmap number string :=
  if negb (ok resp) then ∅
  else foldl set_label ∅ (split LF (text resp)).

End Labels.

(** ** A small engine and browser to run the driver on

    Every instruction of the counting machine is one address long; the
    instruction at an address makes the host calls that [prog] lists for
    it.  A batch is cut short at the first registered break address. *)

Module Toy.

Definition counter (prog : Z → list HostCall) : Engine Z :=
  {| eip := id;
     cpu_step := λ _ c,
       {| host_calls := (λ h, (c, h)) <$> prog c; final := (c + 1)%Z |};
     cpu_step_many := λ bs _ c,
       ({| host_calls := (λ h, (c, h)) <$> prog c; final := (c + 1)%Z |},
        bool_decide ((c + 1)%Z ∉ bs)) |}.

Definition quiet : Engine Z := counter (λ _, []).

(** The guest calls [exit(3)] at address 7. *)
Definition exits_at_7 : Engine Z :=
  counter (λ c, if bool_decide (c = 7%Z) then [HostExit 3] else []).

Definition browser : Browser :=
  {| blend := λ src _, src; quantize := λ p, p; decode := λ _, "" |}.

Definition x86 (prog : Z → list Legacy.HostCall) : Legacy.X86 Z :=
  {| Legacy.eip := id;
     Legacy.cpu_step := λ c, (prog c, (c + 1)%Z) |}.

(** Sessions: just constructed fields, with a one-shot breakpoint on
    the next address, after [exit(3)], and with one window. *)
Definition fresh : VM Z := init 0%Z.
Definition run_to_1 : VM Z := (runTo 1 fresh).1.
Definition exited : VM Z := (exit 3 fresh).1.
Definition before_exit : VM Z := init 7%Z.

(** A breakpoint handed over already disabled. *)
Definition disabled_at_1 : Breakpoint :=
  {| addr := 1; disabled := Some true; oneShot := None |}.
Definition added_disabled : VM Z := (addBreak disabled_at_1 (new_VM 0%Z)).1.

(** A short session: run to address 1, disable the constructor's
    breakpoint, step onto address 1. *)
Definition session : list DriverOp :=
  [DoAddBreak {| addr := 1; disabled := None; oneShot := Some true |};
   DoToggleBreak 0x40a3a5;
   DoStep].

Definition legacy_run_to_1 : Legacy.VM Z :=
  Legacy.runTo 1 {| Legacy.x86 := 0%Z; Legacy.breakpoints := ∅;
                    Legacy.exitCode := None |}.

(** Heaps: one plain 1x1 surface; one primary 1x1 surface (reference 1)
    with its back buffer (reference 0). *)
Definition plain : Heap := (new_Surface 1 1 false []).1.
Definition primary : Heap := (new_Surface 1 1 true []).1.

(** The same without pixels: width 0, height 1. *)
Definition empty_plain : Heap := (new_Surface 0 1 false []).1.
Definition empty_primary : Heap := (new_Surface 0 1 true []).1.

Definition primary_options : wasm.SurfaceOptions :=
  {| wasm.width := 1; wasm.height := 1; wasm.primary := true |}.

End Toy.

(** ** More programs and data for the sample runs *)

Module Samples.

(** A guest that opens two windows, makes a primary surface and prints. *)
Definition windowing : Engine Z :=
  Toy.counter (λ c,
    if bool_decide (c = 0%Z) then [HostCreateWindow]
    else if bool_decide (c = 1%Z)
         then [HostCreateWindow; HostCreateSurface Toy.primary_options]
    else if bool_decide (c = 2%Z) then [HostWrite [Byte.x68; Byte.x69]]
    else []).

Definition browser : Browser :=
  {| blend := λ src _, src; quantize := λ p, p;
     decode := String.string_of_list_byte |}.

Definition three_steps : list DriverOp := [DoStep; DoStep; DoStep].

(** The earlier session at address 0 with an empty table, and a guest
    that calls [exit(3)] in its first instruction. *)
Definition legacy_fresh : Legacy.VM Z :=
  {| Legacy.x86 := 0%Z; Legacy.breakpoints := ∅; Legacy.exitCode := None |}.

Definition legacy_quiet : Legacy.X86 Z := Toy.x86 (λ _, []).

Definition legacy_exits_at_0 : Legacy.X86 Z :=
  Toy.x86 (λ c, if bool_decide (c = 0%Z) then [Legacy.HostExit 3] else []).

(** Forty-eight bytes of memory, and one label. *)
Definition memory : list Byte.byte := replicate 48 Byte.x01.

Definition labels : gmap Z string := {[ 0x01010101%Z := "start" ]}.

(** A stand-in for the engine's numbers: a field is told from another by
    its length, and a missing field is [-1]. *)
Definition globals : Globals :=
  {| number := Z;
     parseInt := λ s _, match s with
                        | Some s => Z.of_nat (String.length s)
                        | None => (-1)%Z
                        end |}.

Definition TAB_ : string := String TAB "".
Definition LF_ : string := String LF "".

(** Two lines for the same address, and a newline at the end. *)
Definition two_lines : Response :=
  {| ok := true;
     text := "main" +:+ TAB_ +:+ "40" +:+ LF_
             +:+ "start" +:+ TAB_ +:+ "41" +:+ LF_ |}.

End Samples.

(** ** Vocabulary of the properties *)

Definition opaque (p : Pixel) : Prop := px_alpha p = Byte.xff.

(** The bytes a canvas reads back after [putImageData] of [data]. *)
Definition readback `{Browser} (data : list Byte.byte) : list Byte.byte :=
  (stored <$> to_pixels data) ≫= pixel_bytes.

(** A bitmap has the shape its canvas announces. *)
Definition canvas_wf (c : Canvas) : Prop :=
  length (bitmap c) = canvas_height c ∧
  Forall (λ row, length row = canvas_width c) (bitmap c).

Definition same_size (c1 c2 : Canvas) : Prop :=
  canvas_width c1 = canvas_width c2 ∧ canvas_height c1 = canvas_height c2.

(** Heaps that the [Surface] class can produce: bitmaps are well shaped and
    a back buffer is another live surface of the same size. *)
Definition heap_ok (heap : Heap) : Prop :=
  ∀ r s, heap !! r = Some s →
    canvas_wf (canvas s) ∧
    ∀ b, back s = Some b →
      b ≠ r ∧ ∃ sb, heap !! b = Some sb ∧ same_size (canvas sb) (canvas s).

(** The calls a holder of surface references can make. *)
Inductive SurfaceOp :=
  | OpNew (w h : nat) (primary : bool)
  | OpWritePixels (s : SurfaceRef) (pixels : list Byte.byte)
  | OpGetAttached (s : SurfaceRef)
  | OpFlip (s : SurfaceRef).

Definition surface_op `{Browser} (op : SurfaceOp) (heap : Heap) : Heap :=
  match op with
  | OpNew w h primary => (new_Surface w h primary heap).1
  | OpWritePixels s pixels => (write_pixels s pixels heap).1
  | OpGetAttached s => (get_attached s heap).1
  | OpFlip s => (flip s heap).1
  end.

Definition surface_ops `{Browser} (ops : list SurfaceOp) (heap : Heap) : Heap :=
  foldl (λ h op, surface_op op h) heap ops.

(** The table is keyed by the address each breakpoint carries. *)
Definition table_wf {Cpu} (vm : VM Cpu) : Prop :=
  ∀ a bp, breakpoints vm !! a = Some bp → addr bp = a.

(** A breakpoint after [bp.disabled = !bp.disabled]. *)
Definition toggled (bp : Breakpoint) : Breakpoint :=
  {| addr := addr bp;
     disabled := Some (negb (truthy (disabled bp)));
     oneShot := oneShot bp |}.

(** The engine's break set holds exactly the addresses of the breakpoints
    that are in the table and not disabled. *)
Definition in_sync {Cpu} (vm : VM Cpu) : Prop :=
  ∀ a, a ∈ break_set (emu vm) ↔
       ∃ bp, breakpoints vm !! a = Some bp ∧ truthy (disabled bp) = false.

(** Two breakpoints that the driver cannot tell apart: an absent
    [disabled] flag reads as [false]. *)
Definition same_breakpoint (bp bp' : Breakpoint) : Prop :=
  addr bp = addr bp' ∧
  truthy (disabled bp) = truthy (disabled bp') ∧
  oneShot bp = oneShot bp'.

(** The earlier table, keyed the same way. *)
Definition legacy_table_wf {Cpu} (vm : Legacy.VM Cpu) : Prop :=
  ∀ a bp, Legacy.breakpoints vm !! a = Some bp → Legacy.addr bp = a.

(** Surfaces stay alive, and keep their back buffer and their size. *)
Definition heap_extends (heap heap' : Heap) : Prop :=
  ∀ r s, heap !! r = Some s →
    ∃ s', heap' !! r = Some s' ∧ back s' = back s ∧
          same_size (canvas s') (canvas s).

(** What running the engine cannot touch.  The engine reaches the session
    through [JsHost] only: it can move its own machine state, set the exit
    code, print, and create windows and surfaces.  The table, the break
    set and the batch tuning stay put, and an exit code once set stays
    set. *)
Definition driver_frame {Cpu} (vm vm' : VM Cpu) : Prop :=
  breakpoints vm' = breakpoints vm ∧
  break_set (emu vm') = break_set (emu vm) ∧
  stepSize vm' = stepSize vm ∧
  instrPerMs vm' = instrPerMs vm ∧
  (exitCode vm ≠ None → exitCode vm' ≠ None).

(** The bookkeeping of [stepMany] after a batch that ran to its end. *)
Definition tuned {Cpu} (start end_ : float) (vm : VM Cpu) : VM Cpu :=
  let delta := (end_ - start)%float in
  let vm' :=
    set_instrPerMs
      (0.5 * (stepSize vm / delta) + (0.5 - 1) * instrPerMs vm)%float vm in
  if (delta <? 10)%float
  then set_stepSize (stepSize vm' * 2)%float vm' else vm'.

(** The mantissa of the binary64 number 2, which is [2^52 * 2^-51]. *)
Definition two52 : positive := 4503599627370496.

(** What a driver call can do to a session, one write at a time. *)
Inductive touches {Cpu} `{Engine Cpu} `{Browser} : VM Cpu → VM Cpu → Prop :=
  | touch_emu f vm : touches vm (set_emu f vm)
  | touch_breakpoints f vm : touches vm (set_breakpoints f vm)
  | touch_tab tab vm :
      touches vm (set_page (λ p, {| page_stdout := page_stdout p;
                                     selectedTab := tab |}) vm)
  | touch_stepSize x vm : touches vm (set_stepSize x vm)
  | touch_instrPerMs x vm : touches vm (set_instrPerMs x vm)
  | touch_host h vm : touches vm (host_call h vm).1.

(** Window [i] of the session carries the key [i + 1]. *)
Definition windows_numbered {Cpu} (vm : VM Cpu) : Prop :=
  ∀ i w, windows vm !! i = Some w → key w = i + 1.

(** A surface shown by a window is a live primary surface. *)
Definition windows_bound {Cpu} (vm : VM Cpu) : Prop :=
  ∀ i w s, windows vm !! i = Some w → surface w = Some s →
    ∃ surf b, heap vm !! s = Some surf ∧ back surf = Some b.

(** A session with another surface heap. *)
Definition with_heap {Cpu} (h : Heap) (vm : VM Cpu) : VM Cpu :=
  {| emu := emu vm; breakpoints := breakpoints vm; exitCode := exitCode vm;
     stdout := stdout vm; page := page vm; stepSize := stepSize vm;
     instrPerMs := instrPerMs vm; windows := windows vm; heap := h |}.

(** The earlier session after [n] calls of [step], whatever they report. *)
Fixpoint legacy_steps {Cpu} `{Legacy.X86 Cpu} (n : nat) (vm : Legacy.VM Cpu)
  : Legacy.VM Cpu :=
  match n with
  | O => vm
  | S n' => legacy_steps n' (Legacy.step vm).1
  end.

(** The row of the stack panel for the word at [addr]. *)
Definition stack_row (esp : Z) (memory : list Byte.byte)
    (labels : gmap Z string) (addr : Z) : StackRow :=
  let value := le_value (take 4 (drop (Z.to_nat addr) memory)) in
  {| row_addr := addr; row_value := value;
     row_label := Stack.label labels value;
     row_bold := bool_decide (addr = esp) |}.

(** * Properties *)

(** ** Binary64 facts used by the driver's arithmetic *)

Module Num.

Lemma binary_round_aux_negb s m e l :
  binary_round_aux prec emax (negb s) m e l
  = SFopp (binary_round_aux prec emax s m e l).
Proof.
  unfold binary_round_aux.
  destruct (shr_fexp prec emax m e l) as [mrs' e'].
  destruct (shr_fexp prec emax _ e' loc_Exact) as [mrs'' e''].
  destruct (shr_m mrs''); [reflexivity| |reflexivity].
  destruct (Z.leb e'' (emax - prec)); reflexivity.
Qed.

Lemma SF64mul_opp_l x y : SF64mul (SFopp x) y = SFopp (SF64mul x y).
Proof.
  destruct x as [sx|sx| |sx mx ex], y as [sy|sy| |sy my ey]; cbn;
    try reflexivity; try (destruct sx, sy; reflexivity).
  rewrite <- binary_round_aux_negb. by destruct sx, sy.
Qed.

Lemma SF64add_opp_r x y : SF64add x (SFopp y) = SF64sub x y.
Proof.
  destruct x as [sx|sx| |sx mx ex], y as [sy|sy| |sy my ey]; cbn;
    try reflexivity; destruct sx, sy; reflexivity.
Qed.

Lemma mul_opp_l (x y : float) : (- x * y = - (x * y))%float.
Proof.
  apply Prim2SF_inj.
  by rewrite opp_spec, !mul_spec, opp_spec, SF64mul_opp_l.
Qed.

Lemma add_opp_r (x y : float) : (x + - y = x - y)%float.
Proof.
  apply Prim2SF_inj.
  by rewrite add_spec, sub_spec, opp_spec, SF64add_opp_r.
Qed.

(** Doubling.  [2] is [2^52 * 2^-51]; the product of a positive finite
    [m * 2^e] with it is rounded back to 53 bits, which gives [m * 2^(e+1)]
    for a normal number (or infinity past the largest exponent) and
    [2m * 2^e] for a subnormal one. *)

Lemma mul_two52 m : (m * two52)%positive = Pos.iter xO m 52.
Proof. rewrite Pos.mul_comm. reflexivity. Qed.

Lemma digits_two52 m :
  Zpos (digits2_pos (Pos.iter xO m 52)) = (Zpos (digits2_pos m) + 52)%Z.
Proof. cbn. lia. Qed.

Lemma SF64mul_two m e :
  bounded prec emax m e = true →
  SF64mul (S754_finite false m e) (S754_finite false two52 (-51))
  = if (Zpos (digits2_pos m) =? 53)%Z
    then (if (e + 1 <=? 971)%Z then S754_finite false m (e + 1)
          else S754_infinity false)
    else S754_finite false m~0 e.
Proof.
  unfold bounded, canonical_mantissa, fexp.
  intros Hb. apply andb_prop in Hb as [Hc He].
  apply Z.eqb_eq in Hc. apply Z.leb_le in He.
  change (SpecFloat.emin prec emax) with (-1074)%Z in *.
  change prec with 53%Z in *. change emax with 1024%Z in *.
  unfold SF64mul, SFmul. cbn [xorb]. rewrite mul_two52.
  unfold binary_round_aux, shr_fexp, Zdigits2.
  rewrite digits_two52. unfold fexp.
  change (SpecFloat.emin prec emax) with (-1074)%Z in *.
  change prec with 53%Z in *. change emax with 1024%Z in *.
  set (d := Z.pos (digits2_pos m)) in *.
  assert (0 < d)%Z by (unfold d; lia).
  destruct (Z.eqb_spec d 53) as [Hd|Hd].
  - replace (Z.max (d + 52 + (e + -51) - 53) (-1074) - (e + -51))%Z
      with 52%Z by lia.
    cbn [shr shr_record_of_loc SpecFloat.iter_pos shr_1 Pos.iter]. cbv beta iota.
    cbn [round_nearest_even loc_of_shr_record shr_m orb]. fold d.
    replace (Z.max (d + (e + -51 + 52) - 53) (-1074) - (e + -51 + 52))%Z
      with 0%Z by lia.
    cbn [shr shr_record_of_loc shr_m].
    replace (e + -51 + 52)%Z with (e + 1)%Z by lia.
    reflexivity.
  - replace (Z.max (d + 52 + (e + -51) - 53) (-1074) - (e + -51))%Z
      with 51%Z by lia.
    cbn [shr shr_record_of_loc SpecFloat.iter_pos shr_1 Pos.iter]. cbv beta iota.
    cbn [round_nearest_even loc_of_shr_record shr_m digits2_pos orb].
    replace (e + -51 + 51)%Z with e by lia.
    replace (Z.max (Z.pos (Pos.succ (digits2_pos m)) + e - 53) (-1074) - e)%Z
      with 0%Z by (fold d; lia).
    cbn [shr shr_record_of_loc shr_m].
    replace (e <=? 1024 - 53)%Z with true by (symmetry; apply Z.leb_le; lia).
    reflexivity.
Qed.

Lemma SFleb_double m e :
  bounded prec emax m e = true →
  let r := SF64mul (S754_finite false m e) (S754_finite false two52 (-51)) in
  SFleb (S754_finite false m e) r = true ∧ SFleb (S754_zero false) r = true.
Proof.
  intros Hb r. unfold r. rewrite (SF64mul_two _ _ Hb).
  destruct (Z.eqb _ 53).
  - destruct (e + 1 <=? 971)%Z; [|split; reflexivity].
    split; [|reflexivity]. unfold SFleb, SFcompare.
    replace (e ?= e + 1)%Z with Lt; [reflexivity|].
    symmetry. apply Z.compare_lt_iff. lia.
  - split; [|reflexivity].
    unfold SFleb, SFcompare. rewrite Z.compare_refl.
    change (Pos.compare_cont Eq m m~0) with (Pos.compare m m~0).
    replace (m ?= m~0)%positive with Lt; [reflexivity|].
    symmetry. apply Pos.compare_lt_iff. lia.
Qed.

(** A batch size that is not negative does not shrink when doubled, and
    stays non-negative. *)
Lemma double_nonneg (x : float) :
  (0 <=? x)%float = true →
  (x <=? x * 2)%float = true ∧ (0 <=? x * 2)%float = true.
Proof.
  rewrite !leb_spec, mul_spec.
  change (Prim2SF 2) with (S754_finite false two52 (-51)).
  change (Prim2SF 0) with (S754_zero false).
  pose proof (Prim2SF_valid x) as Hv.
  destruct (Prim2SF x) as [s|s| |s m e]; try discriminate.
  - intros _. split; reflexivity.
  - destruct s; [discriminate|]. intros _. split; reflexivity.
  - destruct s; [discriminate|]. intros _. apply SFleb_double, Hv.
Qed.

Lemma leb_refl_nonneg (x : float) :
  (0 <=? x)%float = true → (x <=? x)%float = true.
Proof.
  rewrite !leb_spec. change (Prim2SF 0) with (S754_zero false).
  destruct (Prim2SF x) as [s|s| |s m e]; try discriminate; try reflexivity.
  - by destruct s.
  - destruct s; [discriminate|]. intros _.
    unfold SFleb, SFcompare. rewrite Z.compare_refl.
    change (Pos.compare_cont Eq m m) with (Pos.compare m m).
    by rewrite Pos.compare_refl.
Qed.

(** The update of the moving average, as the code writes it and as the
    design states it. *)
Lemma average_law (rate old : float) :
  (0.5 * rate + (0.5 - 1) * old = 0.5 * rate - 0.5 * old)%float.
Proof.
  change (0.5 - 1)%float with (PrimFloat.opp 0.5).
  by rewrite mul_opp_l, add_opp_r.
Qed.

End Num.


(** ** Display *)

Section DisplayFacts.

Context {browser : Browser}.

Lemma to_pixels_bytes n (data : list Byte.byte) :
  length data = 4 * n →
  to_pixels data ≫= pixel_bytes = data ∧ length (to_pixels data) = n.
Proof.
  revert data. induction n as [|n IH]; intros data Hlen.
  - by destruct data.
  - destruct data as [|r [|g [|b [|a data]]]]; simpl in Hlen; try lia.
    destruct (IH data) as [Hb Hl]; [lia|].
    cbn. rewrite Hb, Hl. done.
Qed.

Lemma to_rows_shape h w (ps : list Pixel) :
  length ps = h * w →
  concat (to_rows h w ps) = ps ∧
  length (to_rows h w ps) = h ∧
  Forall (λ row, length row = w) (to_rows h w ps).
Proof.
  revert ps. induction h as [|h IH]; intros ps Hlen.
  - destruct ps; [done | simpl in Hlen; lia].
  - destruct (IH (drop w ps)) as (Hc & Hl & Hf).
    { rewrite length_drop. lia. }
    cbn. rewrite Hc, Hl, take_drop. split_and!; [done..|].
    constructor; [|done]. rewrite length_take. lia.
Qed.

Lemma image_size_pos c :
  0 < image_size c ↔ canvas_width c ≠ 0 ∧ canvas_height c ≠ 0.
Proof. unfold image_size. nia. Qed.

Lemma no_pixels_test c :
  (canvas_width c =? 0) || (canvas_height c =? 0) = false
  ↔ 0 < image_size c.
Proof.
  rewrite image_size_pos, orb_false_iff, !Nat.eqb_neq. done.
Qed.

Lemma ImageData_set_empty c pixels :
  image_size c = 0 →
  ImageData_set c pixels = Throw (DOMException "IndexSizeError").
Proof.
  intros Hz. unfold ImageData_set.
  destruct (_ || _) eqn:Ht; [done|]. apply no_pixels_test in Ht. lia.
Qed.

Lemma ImageData_set_fits c pixels :
  0 < image_size c →
  length pixels ≤ image_size c →
  ImageData_set c pixels
  = Ok (pixels ++ replicate (image_size c - length pixels) Byte.x00).
Proof.
  intros Hpos Hle. unfold ImageData_set.
  rewrite (proj2 (no_pixels_test c) Hpos).
  by destruct (Nat.ltb_spec (image_size c) (length pixels)); [lia|].
Qed.

Lemma ImageData_set_long c pixels :
  0 < image_size c →
  image_size c < length pixels →
  ImageData_set c pixels = Throw RangeError.
Proof.
  intros Hpos Hlt. unfold ImageData_set.
  rewrite (proj2 (no_pixels_test c) Hpos).
  by destruct (Nat.ltb_spec (image_size c) (length pixels)); [|lia].
Qed.

Lemma ImageData_set_length c pixels data :
  ImageData_set c pixels = Ok data → length data = image_size c.
Proof.
  unfold ImageData_set. destruct (_ || _); [done|].
  case_match eqn:Hlt; [done|].
  apply Nat.ltb_ge in Hlt. intros [= <-].
  rewrite length_app, length_replicate. lia.
Qed.

Lemma stored_opaque p : opaque p → stored p = p.
Proof. unfold opaque, stored. by intros ->. Qed.

Lemma readback_opaque (data : list Byte.byte) n :
  length data = 4 * n → Forall opaque (to_pixels data) → readback data = data.
Proof.
  intros Hlen Hop. unfold readback.
  rewrite (Forall_fmap_ext_1 stored id) by (eapply Forall_impl;
    [done|apply stored_opaque]).
  rewrite list_fmap_id. by apply (to_pixels_bytes n).
Qed.

Lemma stored_pixels_length c data :
  length data = image_size c →
  length (stored <$> to_pixels data) = canvas_height c * canvas_width c.
Proof.
  intros Hlen. unfold image_size in Hlen. rewrite length_fmap.
  apply (to_pixels_bytes (canvas_height c * canvas_width c) data). lia.
Qed.

Lemma putImageData_wf data c :
  length data = image_size c → canvas_wf (putImageData data c).
Proof.
  intros Hlen.
  destruct (to_rows_shape _ _ _ (stored_pixels_length c data Hlen))
    as (_ & ? & ?).
  by split.
Qed.

Lemma canvas_bytes_putImageData data c :
  length data = image_size c →
  canvas_bytes (putImageData data c) = readback data.
Proof.
  intros Hlen.
  destruct (to_rows_shape _ _ _ (stored_pixels_length c data Hlen))
    as (Hc & _ & _).
  unfold canvas_bytes, putImageData, readback; cbn. by rewrite Hc.
Qed.

Lemma over_opaque src dst : opaque src → over src dst = src.
Proof. unfold opaque, over. by intros ->. Qed.

Lemma over_row_opaque src dst :
  Forall opaque src → length src = length dst → over_row src dst = src.
Proof.
  intros Ho. revert dst. induction Ho as [|s src Hs _ IH]; intros [|d dst] Hlen;
    try done.
  cbn. rewrite (over_opaque _ _ Hs), IH; [done|]. by injection Hlen.
Qed.

Lemma over_rows_opaque src dst :
  Forall (Forall opaque) src →
  Forall2 (λ s d, length s = length d) src dst →
  over_rows src dst = src.
Proof.
  intros Ho Hs. induction Hs as [|s d src dst Hl _ IH]; [done|].
  inversion_clear Ho. cbn. by rewrite over_row_opaque, IH.
Qed.

Lemma over_row_length src dst : length (over_row src dst) = length dst.
Proof.
  revert src. induction dst as [|d dst IH]; intros [|s src]; cbn; try done.
  by rewrite IH.
Qed.

Lemma over_rows_shape src dst :
  Forall2 (λ r d, length r = length d) (over_rows src dst) dst.
Proof.
  revert src. induction dst as [|d dst IH]; intros [|s src]; cbn.
  - constructor.
  - constructor.
  - by apply Forall_Forall2_diag, Forall_true.
  - constructor; [apply over_row_length | apply IH].
Qed.

Lemma new_canvas_wf w h : canvas_wf (new_canvas w h).
Proof.
  split; cbn.
  - by rewrite length_fmap, length_seq.
  - apply Forall_fmap, Forall_true. intros y. cbn.
    by rewrite length_fmap, length_seq.
Qed.

Lemma row_lengths_transfer (rs ds : list (list Pixel)) w :
  Forall2 (λ r d, length r = length d) rs ds →
  Forall (λ row, length row = w) ds → Forall (λ row, length row = w) rs.
Proof.
  induction 1 as [|r d rs ds Hl _ IH]; [done|].
  inversion_clear 1. constructor; [congruence | by apply IH].
Qed.

Lemma drawImage_cases src dst :
  (image_size src = 0 ∧
   drawImage src dst = Throw (DOMException "InvalidStateError")) ∨
  (0 < image_size src ∧
   drawImage src dst
   = Ok {| canvas_width := canvas_width dst;
           canvas_height := canvas_height dst;
           bitmap := over_rows (bitmap src) (bitmap dst) |}).
Proof.
  unfold drawImage. destruct (_ || _) eqn:Ht.
  - left. split; [|done].
    destruct (decide (0 < image_size src)) as [Hpos|]; [|lia].
    apply no_pixels_test in Hpos. congruence.
  - right. split; [|done]. by apply no_pixels_test.
Qed.

Lemma drawImage_same_size src dst c :
  drawImage src dst = Ok c → same_size c dst.
Proof.
  destruct (drawImage_cases src dst) as [[_ ->]|[_ ->]]; [done|].
  by intros [= <-].
Qed.

Lemma drawImage_wf src dst c :
  canvas_wf dst → drawImage src dst = Ok c → canvas_wf c.
Proof.
  intros [Hh Hw].
  destruct (drawImage_cases src dst) as [[_ ->]|[_ ->]]; [done|].
  intros [= <-].
  pose proof (over_rows_shape (bitmap src) (bitmap dst)) as Hs.
  split; cbn.
  - by rewrite (Forall2_length _ _ _ Hs).
  - by apply (row_lengths_transfer _ _ _ Hs).
Qed.

(** *** The operations, case by case *)

Lemma write_pixels_ok heap s surf pixels data :
  heap !! s = Some surf →
  ImageData_set (canvas surf) pixels = Ok data →
  write_pixels s pixels heap
  = (alter (λ s', {| canvas := putImageData data (canvas surf);
                     back := back s' |}) s heap, Ok tt).
Proof.
  intros Hs Hd. unfold write_pixels, bind, deref, lift. by rewrite Hs, Hd.
Qed.

Lemma write_pixels_throw heap s surf pixels e :
  heap !! s = Some surf →
  ImageData_set (canvas surf) pixels = Throw e →
  write_pixels s pixels heap = (heap, Throw e).
Proof.
  intros Hs Hd. unfold write_pixels, bind, deref, lift. by rewrite Hs, Hd.
Qed.

Lemma get_attached_primary heap s surf b :
  heap !! s = Some surf → back surf = Some b →
  get_attached s heap = (heap, Ok b).
Proof.
  intros Hs Hb. unfold get_attached, bind, deref. by rewrite Hs, Hb.
Qed.

Lemma get_attached_plain heap s surf :
  heap !! s = Some surf → back surf = None →
  get_attached s heap = (heap, Throw (Error "no back for attached")).
Proof.
  intros Hs Hb. unfold get_attached, bind, deref. by rewrite Hs, Hb.
Qed.

Lemma flip_primary heap s surf b sb c :
  heap !! s = Some surf → back surf = Some b → heap !! b = Some sb →
  drawImage (canvas sb) (canvas surf) = Ok c →
  flip s heap
  = (alter (λ s', {| canvas := c; back := back s' |}) s heap, Ok tt).
Proof.
  intros Hs Hb Hsb Hc. unfold flip, bind, deref, lift.
  by rewrite Hs, Hb, Hsb, Hc.
Qed.

Lemma flip_throw heap s surf b sb e :
  heap !! s = Some surf → back surf = Some b → heap !! b = Some sb →
  drawImage (canvas sb) (canvas surf) = Throw e →
  flip s heap = (heap, Throw e).
Proof.
  intros Hs Hb Hsb Hc. unfold flip, bind, deref, lift.
  by rewrite Hs, Hb, Hsb, Hc.
Qed.

Lemma flip_plain heap s surf :
  heap !! s = Some surf → back surf = None →
  flip s heap = (heap, Throw (Error "no back for flip")).
Proof.
  intros Hs Hb. unfold flip, bind, deref. by rewrite Hs, Hb.
Qed.

Lemma new_Surface_plain w h heap :
  new_Surface w h false heap
  = (heap ++ [{| canvas := new_canvas w h; back := None |}],
     Ok (length heap)).
Proof. reflexivity. Qed.

Lemma new_Surface_primary w h heap :
  new_Surface w h true heap
  = (heap ++ [{| canvas := new_canvas w h; back := None |};
              {| canvas := new_canvas w h; back := Some (length heap) |}],
     Ok (S (length heap))).
Proof.
  unfold new_Surface, bind, alloc, ret. cbn.
  rewrite <- app_assoc, length_app. cbn. do 2 f_equal. lia.
Qed.

(** *** What every operation keeps *)

Lemma heap_extends_refl heap : heap_extends heap heap.
Proof. intros r s Hs. by exists s. Qed.

Lemma heap_extends_trans h1 h2 h3 :
  heap_extends h1 h2 → heap_extends h2 h3 → heap_extends h1 h3.
Proof.
  intros H12 H23 r s Hs.
  destruct (H12 r s Hs) as (s2 & Hs2 & Hb2 & Hw2 & Hh2).
  destruct (H23 r s2 Hs2) as (s3 & Hs3 & Hb3 & Hw3 & Hh3).
  exists s3. unfold same_size. split_and!; congruence.
Qed.

Lemma heap_extends_app heap l : heap_extends heap (heap ++ l).
Proof.
  intros r s Hs. exists s. split; [|done]. by apply lookup_app_l_Some.
Qed.

Lemma heap_extends_alter heap r c surf :
  heap !! r = Some surf → same_size c (canvas surf) →
  heap_extends heap (alter (λ s', {| canvas := c; back := back s' |}) r heap).
Proof.
  intros Hr Hc r' s Hs. destruct (decide (r = r')) as [<-|Hne].
  - rewrite list_lookup_alter_eq, Hs. cbn. eexists; split; [done|].
    split; [done|]. cbn. congruence.
  - rewrite list_lookup_alter_ne by done. by exists s.
Qed.

Lemma heap_ok_alter heap r c surf :
  heap_ok heap → heap !! r = Some surf →
  canvas_wf c → same_size c (canvas surf) →
  heap_ok (alter (λ s', {| canvas := c; back := back s' |}) r heap).
Proof.
  intros Hok Hr Hwf Hsz r' s. pose proof (heap_extends_alter _ _ _ _ Hr Hsz) as Hext.
  destruct (decide (r = r')) as [<-|Hne].
  - rewrite list_lookup_alter_eq, Hr. cbn. intros [= <-]. cbn. split; [done|].
    intros b Hb. destruct (Hok r surf Hr) as [_ Hback].
    destruct (Hback b Hb) as (Hbr & sb & Hsb & Hsame). split; [done|].
    destruct (Hext b sb Hsb) as (sb' & Hsb' & _ & Hsame').
    exists sb'. split; [done|]. unfold same_size in *. split; lia.
  - rewrite list_lookup_alter_ne by done. intros Hs.
    destruct (Hok r' s Hs) as [Hwf' Hback]. split; [done|].
    intros b Hb. destruct (Hback b Hb) as (Hbr & sb & Hsb & Hsame).
    split; [done|]. destruct (Hext b sb Hsb) as (sb' & Hsb' & _ & Hsame').
    exists sb'. split; [done|]. unfold same_size in *. split; lia.
Qed.

Lemma heap_ok_snoc heap s :
  heap_ok heap → canvas_wf (canvas s) →
  (∀ b, back s = Some b →
     ∃ sb, heap !! b = Some sb ∧ same_size (canvas sb) (canvas s)) →
  heap_ok (heap ++ [s]).
Proof.
  intros Hok Hwf Hback r s' Hr. apply lookup_app_Some in Hr as [Hr|[Hge Hr]].
  - destruct (Hok r s' Hr) as [Hwf' Hback']. split; [done|].
    intros b Hb. destruct (Hback' b Hb) as (Hne & sb & Hsb & Hsz).
    split; [done|]. exists sb. split; [|done]. by apply lookup_app_l_Some.
  - destruct (r - length heap) as [|i] eqn:Hi; [|by destruct i].
    injection Hr as <-. split; [done|].
    intros b Hb. destruct (Hback b Hb) as (sb & Hsb & Hsz).
    split; [apply lookup_lt_Some in Hsb; lia|].
    exists sb. split; [|done]. by apply lookup_app_l_Some.
Qed.

Lemma surface_op_extends op heap : heap_extends heap (surface_op op heap).
Proof.
  destruct op as [w h [] | s pixels | s | s]; cbn [surface_op].
  - rewrite new_Surface_primary. apply heap_extends_app.
  - rewrite new_Surface_plain. apply heap_extends_app.
  - destruct (heap !! s) as [surf|] eqn:Hs.
    + destruct (ImageData_set (canvas surf) pixels) as [data|e] eqn:Hd.
      * rewrite (write_pixels_ok _ _ _ _ _ Hs Hd). cbn.
        by apply heap_extends_alter with surf.
      * rewrite (write_pixels_throw _ _ _ _ _ Hs Hd). apply heap_extends_refl.
    + unfold write_pixels, bind, deref. rewrite Hs. apply heap_extends_refl.
  - unfold get_attached, bind, deref.
    destruct (heap !! s) as [surf|]; [|apply heap_extends_refl].
    destruct (back surf); apply heap_extends_refl.
  - destruct (heap !! s) as [surf|] eqn:Hs.
    + destruct (back surf) as [b|] eqn:Hb.
      * destruct (heap !! b) as [sb|] eqn:Hsb.
        -- destruct (drawImage (canvas sb) (canvas surf)) as [c|e] eqn:Hc.
           ++ rewrite (flip_primary _ _ _ _ _ _ Hs Hb Hsb Hc). cbn.
              apply heap_extends_alter with surf; [done|].
              by apply drawImage_same_size with (canvas sb).
           ++ rewrite (flip_throw _ _ _ _ _ _ Hs Hb Hsb Hc).
              apply heap_extends_refl.
        -- unfold flip, bind, deref. rewrite Hs, Hb, Hsb.
           apply heap_extends_refl.
      * rewrite (flip_plain _ _ _ Hs Hb). apply heap_extends_refl.
    + unfold flip, bind, deref. rewrite Hs. apply heap_extends_refl.
Qed.

Lemma surface_ops_extends ops heap : heap_extends heap (surface_ops ops heap).
Proof.
  revert heap. induction ops as [|op ops IH]; intros heap.
  - apply heap_extends_refl.
  - eapply heap_extends_trans; [apply (surface_op_extends op)|apply IH].
Qed.

Lemma surface_op_ok op heap : heap_ok heap → heap_ok (surface_op op heap).
Proof.
  intros Hok. destruct op as [w h [] | s pixels | s | s]; cbn [surface_op].
  - unfold new_Surface, bind, alloc, ret. cbn.
    apply heap_ok_snoc; cbn.
    + apply heap_ok_snoc; [done|apply new_canvas_wf|done].
    + apply new_canvas_wf.
    + intros b [= <-]. eexists. split; [apply list_lookup_middle; done|done].
  - rewrite new_Surface_plain. cbn.
    apply heap_ok_snoc; [done|apply new_canvas_wf|done].
  - destruct (heap !! s) as [surf|] eqn:Hs.
    + destruct (ImageData_set (canvas surf) pixels) as [data|e] eqn:Hd.
      * rewrite (write_pixels_ok _ _ _ _ _ Hs Hd). cbn.
        apply heap_ok_alter with surf; [done..| |done].
        by apply putImageData_wf, ImageData_set_length with pixels.
      * by rewrite (write_pixels_throw _ _ _ _ _ Hs Hd).
    + unfold write_pixels, bind, deref. by rewrite Hs.
  - unfold get_attached, bind, deref.
    destruct (heap !! s) as [surf|]; [|done]. by destruct (back surf).
  - destruct (heap !! s) as [surf|] eqn:Hs.
    + destruct (back surf) as [b|] eqn:Hb.
      * destruct (heap !! b) as [sb|] eqn:Hsb.
        -- destruct (drawImage (canvas sb) (canvas surf)) as [c|e] eqn:Hc.
           ++ rewrite (flip_primary _ _ _ _ _ _ Hs Hb Hsb Hc). cbn.
              apply heap_ok_alter with surf; [done..| |].
              ** apply (drawImage_wf (canvas sb) (canvas surf)); [|done].
                 by destruct (Hok s surf Hs).
              ** by apply drawImage_same_size with (canvas sb).
           ++ by rewrite (flip_throw _ _ _ _ _ _ Hs Hb Hsb Hc).
        -- unfold flip, bind, deref. by rewrite Hs, Hb, Hsb.
      * by rewrite (flip_plain _ _ _ Hs Hb).
    + unfold flip, bind, deref. by rewrite Hs.
Qed.

Lemma surface_ops_ok ops heap : heap_ok heap → heap_ok (surface_ops ops heap).
Proof.
  revert heap. induction ops as [|op ops IH]; intros heap Hok; [done|].
  apply IH. by apply surface_op_ok.
Qed.

Lemma heap_ok_nil : heap_ok [].
Proof. by intros r s. Qed.

Lemma Forall_to_rows (P : Pixel → Prop) h w ps :
  Forall P ps → Forall (Forall P) (to_rows h w ps).
Proof.
  revert ps. induction h as [|h IH]; intros ps HP; cbn; [done|].
  constructor; [by apply Forall_take | by apply IH, Forall_drop].
Qed.

Lemma same_row_lengths (l1 l2 : list (list Pixel)) w :
  length l1 = length l2 →
  Forall (λ row, length row = w) l1 → Forall (λ row, length row = w) l2 →
  Forall2 (λ s d, length s = length d) l1 l2.
Proof.
  intros Hlen H1. revert l2 Hlen.
  induction H1 as [|r l1 Hr _ IH]; intros [|d l2] Hlen H2; try done.
  inversion_clear H2. constructor; [congruence|]. apply IH; [|done].
  by injection Hlen.
Qed.

Lemma write_pixels_fits heap s surf pixels :
  heap !! s = Some surf →
  0 < image_size (canvas surf) →
  length pixels ≤ image_size (canvas surf) →
  ∃ heap',
    write_pixels s pixels heap = (heap', Ok tt) ∧
    contents heap' s
    = Some (readback
              (pixels ++ replicate (image_size (canvas surf) - length pixels)
                           Byte.x00)) ∧
    ∀ r, r ≠ s → heap' !! r = heap !! r.
Proof.
  intros Hs Hpos Hle. pose proof (ImageData_set_fits _ _ Hpos Hle) as Hd.
  eexists. split; [by apply write_pixels_ok|]. split.
  - unfold contents. rewrite list_lookup_alter_eq, Hs.
    cbn -[canvas_bytes putImageData].
    rewrite canvas_bytes_putImageData; [done|].
    by apply ImageData_set_length with pixels.
  - intros r Hr. by rewrite list_lookup_alter_ne.
Qed.

(** C6, as amended.  On a surface with no pixels (a width or height of
    zero) [write_pixels] throws whatever the buffer, the empty one
    included.  Otherwise: a buffer of exactly [4 * width * height] bytes
    replaces the whole bitmap, which then reads back as the buffer does
    once the canvas has stored it, byte for byte when every pixel of the
    buffer is opaque; a longer buffer makes the call throw (a
    [RangeError]) and leaves the heap as it was; a shorter buffer is
    accepted, and the surface then holds the buffer followed by zero
    bytes.  Other surfaces are not touched. *)
Theorem write_pixels_by_length heap s surf pixels :
  heap !! s = Some surf →
  (image_size (canvas surf) = 0 →
     write_pixels s pixels heap
     = (heap, Throw (DOMException "IndexSizeError"))) ∧
  (0 < image_size (canvas surf) →
     (length pixels = image_size (canvas surf) →
        ∃ heap', write_pixels s pixels heap = (heap', Ok tt) ∧
                 contents heap' s = Some (readback pixels) ∧
                 (Forall opaque (to_pixels pixels) →
                  contents heap' s = Some pixels) ∧
                 ∀ r, r ≠ s → heap' !! r = heap !! r) ∧
     (image_size (canvas surf) < length pixels →
        write_pixels s pixels heap = (heap, Throw RangeError)) ∧
     (length pixels < image_size (canvas surf) →
        ∃ heap', write_pixels s pixels heap = (heap', Ok tt) ∧
                 contents heap' s
                 = Some (readback
                           (pixels ++ replicate
                              (image_size (canvas surf) - length pixels)
                              Byte.x00)) ∧
                 ∀ r, r ≠ s → heap' !! r = heap !! r)).
Proof.
  intros Hs. split.
  { intros Hz. apply write_pixels_throw with surf; [done|].
    by apply ImageData_set_empty. }
  intros Hpos. split_and!.
  - intros Hlen.
    destruct (write_pixels_fits heap s surf pixels Hs Hpos)
      as (heap' & Hw & Hc & Hf); [lia|].
    rewrite Hlen, Nat.sub_diag, app_nil_r in Hc.
    exists heap'. split_and!; [done|done| |done].
    intros Hop. rewrite Hc. f_equal.
    apply (readback_opaque pixels
             (canvas_width (canvas surf) * canvas_height (canvas surf)));
      [|done].
    rewrite Hlen. unfold image_size. lia.
  - intros Hlt. apply write_pixels_throw with surf; [done|].
    by apply ImageData_set_long.
  - intros Hlt. apply write_pixels_fits; [done|done|lia].
Qed.

(** C8, as amended.  In a heap built by the [Surface] class, take a
    surface [p] with back buffer [b], and a buffer, not empty, of exactly
    [4 * width * height] bytes all of whose pixels are opaque.  Writing
    the buffer to [b] and flipping [p] makes [p] read as that buffer. *)
Theorem flip_shows_back_buffer heap p sp b pixels :
  heap_ok heap →
  heap !! p = Some sp → back sp = Some b →
  pixels ≠ [] →
  length pixels = image_size (canvas sp) →
  Forall opaque (to_pixels pixels) →
  ∃ heap', (write_pixels b pixels ;; flip p) heap = (heap', Ok tt) ∧
           contents heap' p = Some pixels.
Proof.
  intros Hok Hp Hb Hne0 Hlen Hop.
  destruct (Hok p sp Hp) as [[Hh Hw] Hback].
  destruct (Hback b Hb) as (Hne & sb & Hsb & Hsw & Hsh).
  assert (image_size (canvas sb) = image_size (canvas sp)) as Hsz
    by (unfold image_size; congruence).
  assert (0 < image_size (canvas sb)) as Hpos.
  { rewrite Hsz, <-Hlen. destruct pixels; [done|cbn; lia]. }
  assert (ImageData_set (canvas sb) pixels = Ok pixels) as Hd.
  { rewrite ImageData_set_fits by lia.
    by rewrite Hsz, Hlen, Nat.sub_diag, app_nil_r. }
  unfold bind at 1. rewrite (write_pixels_ok _ _ _ _ _ Hsb Hd).
  destruct (drawImage_cases (putImageData pixels (canvas sb)) (canvas sp))
    as [[Hz _]|[_ Hdraw]]; [unfold image_size in *; cbn in Hz; lia|].
  erewrite flip_primary; [|by rewrite list_lookup_alter_ne|done|
                          by rewrite list_lookup_alter_eq, Hsb|exact Hdraw].
  eexists. split; [done|].
  unfold contents. rewrite list_lookup_alter_eq, list_lookup_alter_ne, Hp by done.
  cbn -[putImageData]. f_equal.
  rewrite <- (readback_opaque pixels
                (canvas_width (canvas sb) * canvas_height (canvas sb))) at 2;
    [|unfold image_size in *; lia|done].
  rewrite <- (canvas_bytes_putImageData pixels (canvas sb)) by lia.
  unfold canvas_bytes. cbn. f_equal. f_equal.
  destruct (to_rows_shape _ _ _ (stored_pixels_length (canvas sb) pixels
                                   ltac:(lia)))
    as (_ & Hrows & Hcols).
  apply over_rows_opaque.
  - apply Forall_to_rows, Forall_fmap. eapply Forall_impl; [done|].
    intros px Hpx. cbn. by rewrite stored_opaque.
  - apply same_row_lengths with (canvas_width (canvas sb));
      [congruence|done|by rewrite Hsw].
Qed.

(** C9, as amended.  A surface built with [primary = false] is the one
    new object of its constructor and has no back buffer, then and after
    any further surface calls: [get_attached] and [flip] throw and change
    nothing.  The constructor of a surface with [primary = true] makes
    two new objects, the back buffer first: a surface of the same size
    without a back buffer of its own, which the new surface refers to.
    After any further surface calls the back buffer is still live, still
    of that size and still without a back buffer, and [get_attached]
    returns it.  [flip] succeeds when the surface has pixels; on a
    surface of width or height zero it throws, from [drawImage], and
    changes nothing. *)
Theorem back_buffer_by_construction heap w h primary ops :
  ∃ heap1 s,
    new_Surface w h primary heap = (heap1, Ok s) ∧
    let heap2 := surface_ops ops heap1 in
    if primary then
      let b := length heap in
      s = S b ∧
      heap1 = heap ++ [{| canvas := new_canvas w h; back := None |};
                       {| canvas := new_canvas w h; back := Some b |}] ∧
      get_attached s heap2 = (heap2, Ok b) ∧
      (∃ sb, heap2 !! b = Some sb ∧ back sb = None ∧
             same_size (canvas sb) (new_canvas w h)) ∧
      (w = 0 ∨ h = 0 →
       flip s heap2 = (heap2, Throw (DOMException "InvalidStateError"))) ∧
      (w ≠ 0 → h ≠ 0 → ∃ heap3, flip s heap2 = (heap3, Ok tt))
    else
      s = length heap ∧
      heap1 = heap ++ [{| canvas := new_canvas w h; back := None |}] ∧
      get_attached s heap2 = (heap2, Throw (Error "no back for attached")) ∧
      flip s heap2 = (heap2, Throw (Error "no back for flip")).
Proof.
  destruct primary.
  - eexists _, _. split; [apply new_Surface_primary|]. cbn zeta.
    set (heap1 := heap ++ _).
    destruct (surface_ops_extends ops heap1 (S (length heap))
                {| canvas := new_canvas w h; back := Some (length heap) |})
      as (s' & Hs' & Hb' & Hsz').
    { unfold heap1. rewrite lookup_app_r by lia.
      by replace (S (length heap) - length heap) with 1 by lia. }
    destruct (surface_ops_extends ops heap1 (length heap)
                {| canvas := new_canvas w h; back := None |})
      as (sb & Hsb & Hbb & Hszb).
    { unfold heap1. by apply list_lookup_middle. }
    split_and!; [done|done|by apply get_attached_primary with s'| | |].
    + by exists sb.
    + intros Hz.
      destruct (drawImage_cases (canvas sb) (canvas s')) as [[_ Hd]|[Hpos _]].
      * by apply flip_throw with s' (length heap) sb.
      * apply image_size_pos in Hpos. destruct Hszb as [Hw Hh].
        cbn in Hw, Hh. lia.
    + intros Hw0 Hh0.
      destruct (drawImage_cases (canvas sb) (canvas s')) as [[Hz _]|[_ Hd]].
      * destruct Hszb as [Hw Hh]. cbn in Hw, Hh.
        unfold image_size in Hz. nia.
      * eexists. exact (flip_primary _ _ _ _ _ _ Hs' Hb' Hsb Hd).
  - eexists _, _. split; [apply new_Surface_plain|]. cbn zeta.
    destruct (surface_ops_extends ops
                (heap ++ [{| canvas := new_canvas w h; back := None |}])
                (length heap) {| canvas := new_canvas w h; back := None |})
      as (s' & Hs' & Hb' & _).
    { by apply list_lookup_middle. }
    split_and!; [done|done|by apply get_attached_plain with s'
                |by apply flip_plain with s'].
Qed.

End DisplayFacts.

(** ** Driver *)

Section DriverFacts.

Context {Cpu : Type} {engine : Engine Cpu} {browser : Browser}.

Implicit Types (vm : VM Cpu) (bp : Breakpoint) (a : Z).

(** *** What running the engine cannot touch *)

Lemma driver_frame_refl vm : driver_frame vm vm.
Proof. by repeat split. Qed.

Lemma driver_frame_trans vm1 vm2 vm3 :
  driver_frame vm1 vm2 → driver_frame vm2 vm3 → driver_frame vm1 vm3.
Proof.
  intros (?&?&?&?&?) (?&?&?&?&?). repeat split; try congruence. auto.
Qed.

Lemma host_call_frame h vm : driver_frame vm (host_call h vm).1.
Proof.
  destruct h as [code|buf| | |opts]; try by repeat split.
  unfold host_call, create_surface, bind, on_heap, gets, modify, ret, throw.
  destruct (new_Surface _ _ _ (heap vm)) as [h' [s|e]]; cbn;
    [|by repeat split].
  destruct (wasm.primary opts); cbn; [|by repeat split].
  destruct (array_get _ _); by repeat split.
Qed.

Lemma run_calls_frame calls final vm :
  driver_frame vm (run_calls calls final vm).1.
Proof.
  revert vm. induction calls as [|[c h] calls IH]; intros vm; [by repeat split|].
  cbn [run_calls]. unfold bind at 1 2. unfold modify at 1.
  pose proof (host_call_frame h (set_emu (with_cpu c) vm)) as Hh.
  destruct (host_call h _) as [vm1 [[]|e]]; cbn in Hh |- *.
  - eapply driver_frame_trans; [|apply IH].
    eapply driver_frame_trans; [|apply Hh]. by repeat split.
  - eapply driver_frame_trans; [|apply Hh]. by repeat split.
Qed.

Lemma emu_step_frame vm : driver_frame vm (emu_step vm).1.
Proof. apply run_calls_frame. Qed.

Lemma emu_step_many_frame count vm :
  driver_frame vm (emu_step_many count vm).1.
Proof.
  unfold emu_step_many, bind, gets, run, ret.
  destruct (cpu_step_many _ _ _) as [r ranAll].
  pose proof (run_calls_frame (host_calls r) (final r) vm) as Hr.
  by destruct (run_calls _ _ vm) as [vm1 [[]|e]].
Qed.

(** *** [checkBreak] and [step], case by case *)

Lemma checkBreak_exited vm code :
  exitCode vm = Some code → checkBreak vm = (vm, Ok true).
Proof. intros He. unfold checkBreak, bind, gets, ret. by rewrite He. Qed.

Lemma checkBreak_running vm :
  exitCode vm = None →
  checkBreak vm =
    match breakpoints vm !! eip (cpu (emu vm)) with
    | Some bp =>
        if truthy (disabled bp) then (vm, Ok false)
        else if truthy (oneShot bp) then ((delBreak (addr bp) vm).1, Ok true)
        else (set_page (λ p, {| page_stdout := page_stdout p;
                                selectedTab := "breakpoints" |}) vm, Ok true)
    | None => (vm, Ok false)
    end.
Proof.
  intros He. unfold checkBreak, bind, gets, ret. rewrite He. cbn.
  destruct (breakpoints vm !! _) as [bp|]; [|done].
  destruct (truthy (disabled bp)); [done|]. by destruct (truthy (oneShot bp)).
Qed.

Lemma checkBreak_never_throws vm : ∃ b, (checkBreak vm).2 = Ok b.
Proof.
  destruct (exitCode vm) as [code|] eqn:He.
  - rewrite (checkBreak_exited _ _ He). by eexists.
  - rewrite (checkBreak_running _ He).
    destruct (breakpoints vm !! _) as [bp|]; [|by eexists].
    destruct (truthy (disabled bp)); [by eexists|].
    destruct (truthy (oneShot bp)); by eexists.
Qed.

Lemma step_unfold vm :
  step vm =
    match emu_step vm with
    | (vm1, Ok _) =>
        match checkBreak vm1 with
        | (vm2, Ok b) => (vm2, Ok (negb b))
        | (vm2, Throw e) => (vm2, Throw e)
        end
    | (vm1, Throw e) => (vm1, Throw e)
    end.
Proof. reflexivity. Qed.

(** C2, as amended.  Once [exitCode] is set, [step] still runs the engine
    for one instruction, since [emu.step()] comes first and is
    unconditional; the machine state, and whatever the engine's host calls
    reach, may change.  The driver adds nothing to that: the state after
    [step] is the state after the engine call, the table, the break set
    and the batch tuning are as before, the exit code is still set, and
    the call reports "stopped" if the engine call returns. *)
Theorem step_after_exit vm code :
  exitCode vm = Some code →
  ∃ vm1 r,
    emu_step vm = (vm1, r) ∧
    step vm = (vm1, match r with Ok _ => Ok false | Throw e => Throw e end) ∧
    driver_frame vm vm1.
Proof.
  intros He. pose proof (emu_step_frame vm) as Hf.
  rewrite step_unfold. destruct (emu_step vm) as [vm1 [[]|e]]; cbn in Hf.
  - exists vm1, (Ok tt). split; [done|]. split; [|done].
    destruct Hf as (_&_&_&_&Hx).
    assert (exitCode vm1 ≠ None) as Hx1 by (apply Hx; congruence).
    destruct (exitCode vm1) as [code1|] eqn:He1; [|done].
    by rewrite (checkBreak_exited _ _ He1).
  - by exists vm1, (Throw e).
Qed.

(** *** The breakpoint table and the engine's break set *)

Lemma addBreak_unfold bp vm :
  addBreak bp vm
  = (set_emu (breakpoint_add (addr bp))
       (set_breakpoints <[addr bp := bp]> vm), Ok tt).
Proof. reflexivity. Qed.

Lemma delBreak_unfold a vm :
  delBreak a vm
  = (set_emu (breakpoint_clear a) (set_breakpoints (delete a) vm), Ok tt).
Proof. reflexivity. Qed.

Lemma toggleBreak_missing a vm :
  breakpoints vm !! a = None → toggleBreak a vm = (vm, Throw TypeError).
Proof. intros Ha. unfold toggleBreak, bind, gets, throw. by rewrite Ha. Qed.

Lemma toggleBreak_found a bp vm :
  breakpoints vm !! a = Some bp →
  toggleBreak a vm
  = (set_emu (if truthy (disabled bp)
              then breakpoint_add a else breakpoint_clear a)
       (set_breakpoints <[a := toggled bp]> vm), Ok tt).
Proof.
  intros Ha. unfold toggleBreak, bind, gets, modify, toggled. rewrite Ha. cbn.
  by destruct (truthy (disabled bp)).
Qed.

Lemma in_sync_frame vm vm' :
  breakpoints vm' = breakpoints vm →
  break_set (emu vm') = break_set (emu vm) →
  in_sync vm → in_sync vm'.
Proof. unfold in_sync. by intros -> ->. Qed.

Lemma table_wf_frame vm vm' :
  breakpoints vm' = breakpoints vm → table_wf vm → table_wf vm'.
Proof. unfold table_wf. by intros ->. Qed.

Lemma addBreak_in_sync bp vm :
  truthy (disabled bp) = false → in_sync vm → in_sync (addBreak bp vm).1.
Proof.
  intros Hen Hsync a. cbn. destruct (decide (a = addr bp)) as [->|Hne].
  - rewrite lookup_insert_eq. split; [by exists bp|set_solver].
  - rewrite lookup_insert_ne by done. rewrite <- (Hsync a). set_solver.
Qed.

Lemma addBreak_table_wf bp vm : table_wf vm → table_wf (addBreak bp vm).1.
Proof.
  intros Hwf a bp'. cbn. destruct (decide (a = addr bp)) as [->|Hne].
  - rewrite lookup_insert_eq. by intros [= <-].
  - rewrite lookup_insert_ne by done. apply Hwf.
Qed.

Lemma delBreak_in_sync a vm : in_sync vm → in_sync (delBreak a vm).1.
Proof.
  intros Hsync a'. cbn. destruct (decide (a' = a)) as [->|Hne].
  - rewrite lookup_delete_eq. split; [set_solver|by intros (? & ? & _)].
  - rewrite lookup_delete_ne by done. rewrite <- (Hsync a'). set_solver.
Qed.

Lemma delBreak_table_wf a vm : table_wf vm → table_wf (delBreak a vm).1.
Proof.
  intros Hwf a' bp'. cbn. intros Hl. apply lookup_delete_Some in Hl as [_ Hl].
  by apply Hwf.
Qed.

Lemma toggleBreak_in_sync a vm : in_sync vm → in_sync (toggleBreak a vm).1.
Proof.
  intros Hsync. destruct (breakpoints vm !! a) as [bp|] eqn:Ha.
  - rewrite (toggleBreak_found _ _ _ Ha). intros a'. cbn.
    destruct (decide (a' = a)) as [->|Hne].
    + rewrite lookup_insert_eq. destruct (truthy (disabled bp)) eqn:Hd; cbn.
      * split; [by exists (toggled bp); cbn; rewrite Hd|set_solver].
      * split; [set_solver|]. intros (bp' & [= <-] & Hbp'). cbn in Hbp'.
        by rewrite Hd in Hbp'.
    + rewrite lookup_insert_ne by done. rewrite <- (Hsync a').
      destruct (truthy (disabled bp)); cbn; set_solver.
  - by rewrite (toggleBreak_missing _ _ Ha).
Qed.

Lemma toggleBreak_table_wf a vm : table_wf vm → table_wf (toggleBreak a vm).1.
Proof.
  intros Hwf. destruct (breakpoints vm !! a) as [bp|] eqn:Ha.
  - rewrite (toggleBreak_found _ _ _ Ha). intros a' bp'. cbn.
    destruct (decide (a' = a)) as [->|Hne].
    + rewrite lookup_insert_eq. intros [= <-]. cbn. by apply Hwf.
    + rewrite lookup_insert_ne by done. apply Hwf.
  - by rewrite (toggleBreak_missing _ _ Ha).
Qed.

Lemma checkBreak_cases vm :
  (checkBreak vm).1 = vm ∨
  (∃ a, (checkBreak vm).1 = (delBreak a vm).1) ∨
  (∃ f, (checkBreak vm).1 = set_page f vm).
Proof.
  destruct (exitCode vm) as [code|] eqn:He.
  - left. by rewrite (checkBreak_exited _ _ He).
  - rewrite (checkBreak_running _ He).
    destruct (breakpoints vm !! _) as [bp|]; [|by left].
    destruct (truthy (disabled bp)); [by left|].
    destruct (truthy (oneShot bp)); right; [left|right]; by eexists.
Qed.

Lemma checkBreak_in_sync vm : in_sync vm → in_sync (checkBreak vm).1.
Proof.
  intros Hsync. destruct (checkBreak_cases vm) as [->|[[a ->]|[f ->]]];
    [done|by apply delBreak_in_sync|done].
Qed.

Lemma checkBreak_table_wf vm : table_wf vm → table_wf (checkBreak vm).1.
Proof.
  intros Hwf. destruct (checkBreak_cases vm) as [->|[[a ->]|[f ->]]];
    [done|by apply delBreak_table_wf|done].
Qed.

Lemma checkBreak_stepSize vm :
  stepSize (checkBreak vm).1 = stepSize vm ∧
  instrPerMs (checkBreak vm).1 = instrPerMs vm.
Proof.
  by destruct (checkBreak_cases vm) as [->|[[a ->]|[f ->]]].
Qed.

Lemma step_state vm :
  (step vm).1 = (emu_step vm).1 ∨
  (step vm).1 = (checkBreak (emu_step vm).1).1.
Proof.
  rewrite step_unfold. destruct (emu_step vm) as [vm1 [[]|e]];
    [|left; reflexivity].
  right. cbn [fst]. by destruct (checkBreak vm1) as [vm2 [b|e]].
Qed.

Lemma step_in_sync vm : in_sync vm → in_sync (step vm).1.
Proof.
  intros Hsync. destruct (emu_step_frame vm) as (Hb & Hs & _).
  pose proof (in_sync_frame _ _ Hb Hs Hsync) as Hsync1.
  destruct (step_state vm) as [-> | ->]; [done|by apply checkBreak_in_sync].
Qed.

Lemma step_table_wf vm : table_wf vm → table_wf (step vm).1.
Proof.
  intros Hwf. destruct (emu_step_frame vm) as (Hb & _).
  pose proof (table_wf_frame _ _ Hb Hwf) as Hwf1.
  destruct (step_state vm) as [-> | ->]; [done|by apply checkBreak_table_wf].
Qed.

(** C5.  [toggleBreak] on an address that is not in the table throws (the
    read of [bp.disabled] on [undefined]) and leaves the session as it
    was.  On a registered address it flips the [disabled] flag of that
    entry, touches no other entry, and registers or clears the address
    with the engine accordingly.  A second call brings the entry back to
    a breakpoint the driver cannot tell from the original; when the flag
    was present from the start and the engine agreed with it, the whole
    session is back to what it was. *)
Theorem toggleBreak_flips vm a :
  (breakpoints vm !! a = None → toggleBreak a vm = (vm, Throw TypeError)) ∧
  (∀ bp, breakpoints vm !! a = Some bp →
     ∃ vm1 vm2 bp2,
       toggleBreak a vm = (vm1, Ok tt) ∧
       breakpoints vm1 = <[a := toggled bp]> (breakpoints vm) ∧
       truthy (disabled (toggled bp)) = negb (truthy (disabled bp)) ∧
       (a ∈ break_set (emu vm1) ↔ truthy (disabled (toggled bp)) = false) ∧
       toggleBreak a vm1 = (vm2, Ok tt) ∧
       breakpoints vm2 = <[a := bp2]> (breakpoints vm) ∧
       same_breakpoint bp2 bp ∧
       (a ∈ break_set (emu vm2) ↔ truthy (disabled bp) = false) ∧
       (is_Some (disabled bp) →
        (a ∈ break_set (emu vm) ↔ truthy (disabled bp) = false) →
        vm2 = vm)).
Proof.
  split; [apply toggleBreak_missing|]. intros bp Ha.
  pose proof (toggleBreak_found _ _ _ Ha) as H1.
  set (vm1 := set_emu _ _) in H1.
  assert (breakpoints vm1 !! a = Some (toggled bp)) as Ha1
    by (cbn; apply lookup_insert_eq).
  pose proof (toggleBreak_found _ _ _ Ha1) as H2.
  set (vm2 := set_emu _ _) in H2.
  exists vm1, vm2, (toggled (toggled bp)).
  split_and!; try done.
  - unfold vm1. cbn. destruct (truthy (disabled bp)); cbn; set_solver.
  - unfold vm2, vm1. cbn. by rewrite insert_insert_eq.
  - unfold same_breakpoint. cbn. by rewrite negb_involutive.
  - unfold vm2, vm1. cbn. destruct (truthy (disabled bp)); cbn; set_solver.
  - intros [d Hd] Hsync. clear H1 H2 Ha1. subst vm2 vm1.
    destruct vm as [[c bs] bps ? ? ? ? ? ? ?]. cbn in *.
    unfold set_emu, set_breakpoints, toggled. cbn. rewrite Hd. cbn.
    rewrite negb_involutive, insert_insert_eq.
    rewrite insert_id by (rewrite Ha; by destruct bp; cbn in *; subst).
    f_equal. rewrite Hd in Hsync. cbn in Hsync.
    unfold breakpoint_add, breakpoint_clear. destruct d; cbn; f_equal.
    + assert (a ∉ bs) by (intros Hin; by apply Hsync in Hin).
      clear Hsync. set_solver.
    + assert (a ∈ bs) as Hin by (by apply Hsync). clear Hsync.
      apply set_eq. intros x.
      rewrite elem_of_union, elem_of_difference, elem_of_singleton.
      destruct (decide (x = a)); naive_solver.
Qed.

(** *** [stepMany] *)

Lemma stepMany_unfold start end_ vm :
  stepMany start end_ vm =
    match emu_step_many (stepSize vm) vm with
    | (vm1, Ok true) => (tuned start end_ vm1, Ok true)
    | (vm1, Ok false) =>
        match checkBreak vm1 with
        | (vm2, Ok b) => (vm2, Ok (negb b))
        | (vm2, Throw e) => (vm2, Throw e)
        end
    | (vm1, Throw e) => (vm1, Throw e)
    end.
Proof.
  unfold stepMany, bind at 1 2, gets at 1. cbn [fst snd].
  destruct (emu_step_many (stepSize vm) vm) as [vm1 [[]|e]]; cbn [negb];
    [|done..].
  unfold tuned, bind, modify, ret. by destruct (_ <? _)%float.
Qed.

Lemma stepMany_state start end_ vm :
  let vm1 := (emu_step_many (stepSize vm) vm).1 in
  ((emu_step_many (stepSize vm) vm).2 = Ok true ∧
   (stepMany start end_ vm).1 = tuned start end_ vm1) ∨
  ((emu_step_many (stepSize vm) vm).2 ≠ Ok true ∧
   ((stepMany start end_ vm).1 = vm1 ∨
    (stepMany start end_ vm).1 = (checkBreak vm1).1)).
Proof.
  rewrite stepMany_unfold.
  destruct (emu_step_many (stepSize vm) vm) as [vm1 [[]|e]]; cbn [fst snd].
  - by left.
  - right. split; [done|]. right. by destruct (checkBreak vm1) as [vm2 [b|e]].
  - right. split; [done|]. by left.
Qed.

Lemma tuned_stepSize start end_ vm :
  stepSize (tuned start end_ vm)
  = if (end_ - start <? 10)%float then (stepSize vm * 2)%float
    else stepSize vm.
Proof. unfold tuned. by destruct (_ <? _)%float. Qed.

Lemma tuned_instrPerMs start end_ vm :
  instrPerMs (tuned start end_ vm)
  = (0.5 * (stepSize vm / (end_ - start)) + (0.5 - 1) * instrPerMs vm)%float.
Proof. unfold tuned. by destruct (_ <? _)%float. Qed.

(** C1.  When the batch runs to its end, [stepMany] returns [true] and
    the moving average becomes [0.5 * rate - 0.5 * old], in binary64
    arithmetic, where [rate] is the batch size divided by the elapsed
    milliseconds and [old] is the average before the call. *)
Theorem moving_average_update vm start end_ vm1 :
  emu_step_many (stepSize vm) vm = (vm1, Ok true) →
  ∃ vm2,
    stepMany start end_ vm = (vm2, Ok true) ∧
    instrPerMs vm2
    = (0.5 * (stepSize vm / (end_ - start)) - 0.5 * instrPerMs vm)%float.
Proof.
  intros Hrun. pose proof (emu_step_many_frame (stepSize vm) vm) as Hf.
  rewrite Hrun in Hf. cbn [fst] in Hf. destruct Hf as (_ & _ & Hsz & Havg & _).
  exists (tuned start end_ vm1). split; [by rewrite stepMany_unfold, Hrun|].
  by rewrite tuned_instrPerMs, Num.average_law, Hsz, Havg.
Qed.

Lemma stepMany_stepSize vm start end_ :
  let delta := (end_ - start)%float in
  let ran := (emu_step_many (stepSize vm) vm).2 in
  let vm' := (stepMany start end_ vm).1 in
  (ran = Ok true → (delta <? 10)%float = true →
     stepSize vm' = (stepSize vm * 2)%float) ∧
  (ran = Ok true → (delta <? 10)%float = false →
     stepSize vm' = stepSize vm) ∧
  (ran ≠ Ok true → stepSize vm' = stepSize vm) ∧
  ((0 <=? stepSize vm)%float = true →
     (stepSize vm <=? stepSize vm')%float = true ∧
     (0 <=? stepSize vm')%float = true).
Proof.
  intros delta ran vm'.
  pose proof (emu_step_many_frame (stepSize vm) vm) as (_ & _ & Hsz & _).
  assert (ran = Ok true → stepSize vm'
            = if (delta <? 10)%float then (stepSize vm * 2)%float
              else stepSize vm) as Hran.
  { intros Hr. destruct (stepMany_state start end_ vm) as [[_ Hst]|[Hne _]];
      [|done].
    unfold vm'. rewrite Hst, tuned_stepSize. fold delta.
    by rewrite Hsz. }
  assert (ran ≠ Ok true → stepSize vm' = stepSize vm) as Hnot.
  { intros Hr. destruct (stepMany_state start end_ vm) as [[Heq _]|[_ Hst]];
      [done|].
    unfold vm'. destruct Hst as [-> | ->]; [done|].
    by rewrite (proj1 (checkBreak_stepSize _)). }
  split_and!; [| |done|].
  - intros Hr Hd. by rewrite (Hran Hr), Hd.
  - intros Hr Hd. by rewrite (Hran Hr), Hd.
  - intros Hpos. destruct ran as [[]|e] eqn:Hr.
    + rewrite (Hran eq_refl). destruct (delta <? 10)%float.
      * by apply Num.double_nonneg.
      * split; [by apply Num.leb_refl_nonneg|done].
    + rewrite Hnot by done. split; [by apply Num.leb_refl_nonneg|done].
    + rewrite Hnot by done. split; [by apply Num.leb_refl_nonneg|done].
Qed.

(** C4, as amended.  The batch size doubles exactly when the batch ran
    to its end and took less than 10 ms.  It is unchanged when the batch
    ran to its end and did not take less than 10 ms, and also, whatever
    the duration, when the engine stopped early or the call threw.  A
    batch size that is not negative never shrinks. *)
Theorem batch_size_update vm start end_ :
  let delta := (end_ - start)%float in
  let ran := (emu_step_many (stepSize vm) vm).2 in
  let vm' := (stepMany start end_ vm).1 in
  (ran = Ok true → (delta <? 10)%float = true →
     stepSize vm' = (stepSize vm * 2)%float) ∧
  (ran = Ok true → (delta <? 10)%float = false →
     stepSize vm' = stepSize vm) ∧
  (ran ≠ Ok true → stepSize vm' = stepSize vm) ∧
  ((0 <=? stepSize vm)%float = true →
     (stepSize vm <=? stepSize vm')%float = true ∧
     (0 <=? stepSize vm')%float = true).
Proof. apply stepMany_stepSize. Qed.

(** *** The invariant of the table, over whole runs *)

Lemma stepMany_table start end_ vm :
  let vm' := (stepMany start end_ vm).1 in
  (breakpoints vm' = breakpoints vm ∧
   break_set (emu vm') = break_set (emu vm)) ∨
  vm' = (checkBreak (emu_step_many (stepSize vm) vm).1).1.
Proof.
  pose proof (emu_step_many_frame (stepSize vm) vm) as (Hb & Hs & _).
  destruct (stepMany_state start end_ vm) as [[_ Hst]|[_ [Hst|Hst]]]; cbn zeta;
    rewrite Hst; [left|left|by right]; [|done].
  unfold tuned. by destruct (_ <? _)%float.
Qed.

Lemma driver_op_invariant op vm :
  adds_enabled op →
  table_wf vm ∧ in_sync vm →
  table_wf (driver_op op vm) ∧ in_sync (driver_op op vm).
Proof.
  intros Hop [Hwf Hsync].
  destruct op as [bp|a|a| |start end_]; cbn [driver_op].
  - split; [by apply addBreak_table_wf|by apply addBreak_in_sync].
  - split; [by apply delBreak_table_wf|by apply delBreak_in_sync].
  - split; [by apply toggleBreak_table_wf|by apply toggleBreak_in_sync].
  - split; [by apply step_table_wf|by apply step_in_sync].
  - pose proof (emu_step_many_frame (stepSize vm) vm) as (Hb & Hs & _).
    destruct (stepMany_table start end_ vm) as [[Hb' Hs']| ->].
    + split; [by apply (table_wf_frame vm)|by apply (in_sync_frame vm)].
    + split; [apply checkBreak_table_wf; by apply (table_wf_frame vm)
             |apply checkBreak_in_sync; by apply (in_sync_frame vm)].
Qed.

Lemma new_VM_invariant (c : Cpu) : table_wf (new_VM c) ∧ in_sync (new_VM c).
Proof.
  unfold new_VM. split.
  - apply addBreak_table_wf. intros a bp. cbn. by rewrite lookup_empty.
  - apply addBreak_in_sync; [done|]. intros a. cbn. rewrite lookup_empty.
    split; [set_solver|by intros (? & ? & _)].
Qed.

Lemma driver_ops_invariant ops vm :
  Forall adds_enabled ops →
  table_wf vm ∧ in_sync vm →
  table_wf (driver_ops ops vm) ∧ in_sync (driver_ops ops vm).
Proof.
  intros Hops. revert vm.
  induction Hops as [|op ops Hop _ IH]; intros vm Hinv; [done|].
  apply IH. by apply driver_op_invariant.
Qed.

(** C7.  From the constructor on, after any sequence of [addBreak],
    [delBreak], [toggleBreak], [step] and [stepMany] calls (the last two
    remove a one-shot breakpoint when it is hit), an address is in the
    engine's break set exactly when the table holds a breakpoint for it
    that is not disabled.  Breakpoints are added the way the table's
    callers add them, the constructor and [runTo]: with an address,
    perhaps marked one-shot, and no [disabled] flag set. *)
Theorem break_set_in_sync (c : Cpu) (ops : list DriverOp) (a : Z) :
  Forall adds_enabled ops →
  let vm := driver_ops ops (new_VM c) in
  a ∈ break_set (emu vm) ↔
  ∃ bp, breakpoints vm !! a = Some bp ∧ truthy (disabled bp) = false.
Proof.
  intros Hops.
  apply (driver_ops_invariant ops (new_VM c) Hops (new_VM_invariant c)).
Qed.

(** *** One-shot breakpoints *)

Lemma one_shot_removed vm vm1 bp :
  let ip := eip (cpu (emu vm1)) in
  table_wf vm →
  emu_step vm = (vm1, Ok tt) →
  exitCode vm1 = None →
  breakpoints vm !! ip = Some bp →
  truthy (disabled bp) = false →
  truthy (oneShot bp) = true →
  ∃ vm2,
    step vm = (vm2, Ok false) ∧
    breakpoints vm2 !! ip = None ∧
    (ip ∉ break_set (emu vm2)) ∧
    cpu (emu vm2) = cpu (emu vm1).
Proof.
  intros ip Hwf Hstep He Hbp Hen Hone.
  pose proof (emu_step_frame vm) as Hf. rewrite Hstep in Hf.
  destruct Hf as (Hb & _). cbn [fst] in Hb.
  rewrite step_unfold, Hstep, (checkBreak_running _ He). fold ip.
  rewrite Hb, Hbp, Hen, Hone, (Hwf _ _ Hbp).
  eexists. split; [done|]. cbn.
  split; [apply lookup_delete_eq|]. split; [set_solver|done].
Qed.

(** *** Windows and primary surfaces *)



End DriverFacts.

(** ** The earlier [step] *)

Section LegacyFacts.

Context {Cpu : Type} {x : Legacy.X86 Cpu}.

Lemma legacy_x86_step_breakpoints (vm : Legacy.VM Cpu) :
  Legacy.breakpoints (Legacy.x86_step vm) = Legacy.breakpoints vm.
Proof.
  unfold Legacy.x86_step. destruct (Legacy.cpu_step _) as [calls c].
  cbn. revert vm. induction calls as [|h calls IH]; intros vm; [done|].
  cbn [foldl]. rewrite IH. by destruct h.
Qed.

Lemma legacy_runTo_table_wf a (vm : Legacy.VM Cpu) :
  legacy_table_wf vm → legacy_table_wf (Legacy.runTo a vm).
Proof.
  intros Hwf a' bp. cbn. destruct (decide (a' = a)) as [->|Hne].
  - rewrite lookup_insert_eq. by intros [= <-].
  - rewrite lookup_insert_ne by done. apply Hwf.
Qed.

Lemma temporary_removed (vm : Legacy.VM Cpu) bp :
  let vm1 := Legacy.x86_step vm in
  let ip := Legacy.eip (Legacy.x86 vm1) in
  legacy_table_wf vm →
  Legacy.exitCode vm1 = None →
  Legacy.breakpoints vm !! ip = Some bp →
  truthy (Legacy.temporary bp) = true →
  ∃ vm2,
    Legacy.step vm = (vm2, false) ∧
    Legacy.breakpoints vm2 !! ip = None ∧
    Legacy.x86 vm2 = Legacy.x86 vm1.
Proof.
  intros vm1 ip Hwf He Hbp Htmp. unfold Legacy.step. fold vm1.
  rewrite He. cbn [bool_decide decide_rel]. rewrite bool_decide_eq_false_2 by auto.
  fold ip. unfold vm1 at 1. rewrite legacy_x86_step_breakpoints, Hbp, Htmp.
  eexists. split; [done|]. cbn. pose proof (Hwf _ _ Hbp) as ->.
  split; [apply lookup_delete_eq|done].
Qed.

End LegacyFacts.

(** C3.  A breakpoint marked [oneShot] (now) or [temporary] (in the earlier
    [step]) that is hit is gone when [step] returns.  A hit is a step that
    ends, with the program still running, on the address of a breakpoint
    of the table that is not disabled; [step] then reports "stopped", a
    lookup of that address finds nothing, and the engine no longer has the
    address in its break set. *)
Theorem hit_breakpoint_removed :
  (∀ Cpu (engine : Engine Cpu) (browser : Browser) (vm vm1 : VM Cpu) bp,
     let ip := eip (cpu (emu vm1)) in
     table_wf vm →
     emu_step vm = (vm1, Ok tt) →
     exitCode vm1 = None →
     breakpoints vm !! ip = Some bp →
     truthy (disabled bp) = false →
     truthy (oneShot bp) = true →
     ∃ vm2,
       step vm = (vm2, Ok false) ∧
       breakpoints vm2 !! ip = None ∧
       (ip ∉ break_set (emu vm2)) ∧
       cpu (emu vm2) = cpu (emu vm1)) ∧
  (∀ Cpu (x : Legacy.X86 Cpu) (vm : Legacy.VM Cpu) bp,
     let vm1 := Legacy.x86_step vm in
     let ip := Legacy.eip (Legacy.x86 vm1) in
     legacy_table_wf vm →
     Legacy.exitCode vm1 = None →
     Legacy.breakpoints vm !! ip = Some bp →
     truthy (Legacy.temporary bp) = true →
     ∃ vm2,
       Legacy.step vm = (vm2, false) ∧
       Legacy.breakpoints vm2 !! ip = None ∧
       Legacy.x86 vm2 = Legacy.x86 vm1).
Proof.
  split.
  - intros Cpu engine browser vm vm1 bp. apply (one_shot_removed vm vm1 bp).
  - intros Cpu x vm bp. apply (temporary_removed vm bp).
Qed.

(** ** The batch size over whole runs *)

Section BatchSize.

Context {Cpu : Type} {engine : Engine Cpu} {browser : Browser}.

Lemma driver_op_stepSize_nonneg op (vm : VM Cpu) :
  (0 <=? stepSize vm)%float = true →
  (0 <=? stepSize (driver_op op vm))%float = true.
Proof.
  intros Hpos. destruct op as [bp|a|a| |start end_]; cbn [driver_op].
  - done.
  - done.
  - destruct (breakpoints vm !! a) as [bp|] eqn:Ha.
    + by rewrite (toggleBreak_found _ _ _ Ha).
    + by rewrite (toggleBreak_missing _ _ Ha).
  - destruct (emu_step_frame vm) as (_ & _ & Hsz & _).
    destruct (step_state vm) as [-> | ->]; [by rewrite Hsz|].
    by rewrite (proj1 (checkBreak_stepSize _)), Hsz.
  - by apply stepMany_stepSize.
Qed.

(** X26.  The batch size starts at 5000 and is never negative, nor not a
    number, in any session. *)
Lemma stepSize_nonneg (c : Cpu) ops :
  (0 <=? stepSize (driver_ops ops (new_VM c)))%float = true.
Proof.
  assert (∀ vm : VM Cpu, (0 <=? stepSize vm)%float = true →
            (0 <=? stepSize (driver_ops ops vm))%float = true) as Hall.
  { induction ops as [|op ops IH]; intros vm Hpos; [done|].
    apply IH. by apply driver_op_stepSize_nonneg. }
  by apply Hall.
Qed.

End BatchSize.

(** ** Runs on the counting machine *)

Lemma fresh_table_wf : table_wf Toy.fresh.
Proof. intros a bp. cbn. by rewrite lookup_empty. Qed.

Lemma moving_average_update_witness :
  ∃ vm2,
    @stepMany Z Toy.quiet Toy.browser 0 4 Toy.fresh = (vm2, Ok true) ∧
    instrPerMs vm2 = (0.5 * (5000 / (4 - 0)) - 0.5 * 0)%float.
Proof.
  eapply (@moving_average_update Z Toy.quiet Toy.browser Toy.fresh 0 4).
  reflexivity.
Defined.

(** With the exit code set, [step] reports "stopped" but the engine has
    executed one more instruction: the call is not a no-op. *)
Lemma step_after_exit_runs_engine :
  exitCode Toy.exited = Some 3%Z ∧
  (@step Z Toy.quiet Toy.browser Toy.exited).2 = Ok false ∧
  cpu (emu Toy.exited) = 0%Z ∧
  cpu (emu (@step Z Toy.quiet Toy.browser Toy.exited).1) = 1%Z ∧
  (@step Z Toy.quiet Toy.browser Toy.exited).1 ≠ Toy.exited.
Proof.
  split_and!; [reflexivity..|].
  intros Heq. apply (f_equal (λ vm, cpu (emu vm))) in Heq. discriminate Heq.
Qed.

Lemma step_after_exit_witness :
  ∃ vm1 r,
    @emu_step Z Toy.quiet Toy.browser Toy.exited = (vm1, r) ∧
    @step Z Toy.quiet Toy.browser Toy.exited
    = (vm1, match r with Ok _ => Ok false | Throw e => Throw e end) ∧
    driver_frame Toy.exited vm1.
Proof.
  apply (@step_after_exit Z Toy.quiet Toy.browser Toy.exited 3%Z).
  reflexivity.
Defined.

(** The guest calls [exit(3)] during a step: that step and the next one
    report "stopped", and the exit code stays 3. *)
Lemma exit_during_step :
  let vm1 := (@step Z Toy.exits_at_7 Toy.browser Toy.before_exit).1 in
  (@step Z Toy.exits_at_7 Toy.browser Toy.before_exit).2 = Ok false ∧
  exitCode vm1 = Some 3%Z ∧
  (@step Z Toy.exits_at_7 Toy.browser vm1).2 = Ok false ∧
  exitCode (@step Z Toy.exits_at_7 Toy.browser vm1).1 = Some 3%Z.
Proof. by split_and!. Qed.

Lemma hit_breakpoint_removed_witness :
  (∃ vm2,
     @step Z Toy.quiet Toy.browser Toy.run_to_1 = (vm2, Ok false) ∧
     breakpoints vm2 !! 1%Z = None) ∧
  (∃ vm2,
     @Legacy.step Z (Toy.x86 (λ _, [])) Toy.legacy_run_to_1 = (vm2, false) ∧
     Legacy.breakpoints vm2 !! 1%Z = None).
Proof.
  split.
  - destruct (proj1 hit_breakpoint_removed Z Toy.quiet Toy.browser
                Toy.run_to_1
                (@emu_step Z Toy.quiet Toy.browser Toy.run_to_1).1
                {| addr := 1; disabled := None; oneShot := Some true |})
      as (vm2 & Hstep & Hgone & _).
    + apply addBreak_table_wf, fresh_table_wf.
    + reflexivity.
    + reflexivity.
    + reflexivity.
    + reflexivity.
    + reflexivity.
    + by exists vm2.
  - destruct (proj2 hit_breakpoint_removed Z (Toy.x86 (λ _, []))
                Toy.legacy_run_to_1
                {| Legacy.addr := 1; Legacy.temporary := Some true |})
      as (vm2 & Hstep & Hgone & _).
    + apply legacy_runTo_table_wf. intros a bp. cbn. by rewrite lookup_empty.
    + reflexivity.
    + reflexivity.
    + reflexivity.
    + by exists vm2.
Defined.

(** A batch that the engine cuts short at a breakpoint after 1 ms leaves
    the batch size at 5000 instead of doubling it. *)
Lemma early_stop_keeps_batch_size :
  (1 - 0 <? 10)%float = true ∧
  (@emu_step_many Z Toy.quiet Toy.browser 5000 Toy.run_to_1).2 = Ok false ∧
  stepSize Toy.run_to_1 = 5000%float ∧
  stepSize (@stepMany Z Toy.quiet Toy.browser 0 1 Toy.run_to_1).1 = 5000%float ∧
  stepSize (@stepMany Z Toy.quiet Toy.browser 0 1 Toy.run_to_1).1
  ≠ (stepSize Toy.run_to_1 * 2)%float.
Proof.
  split_and!; [reflexivity..|].
  intros Heq. apply (f_equal (PrimFloat.eqb 5000)) in Heq. discriminate Heq.
Qed.

Lemma batch_size_update_witness :
  stepSize (@stepMany Z Toy.quiet Toy.browser 0 4 Toy.fresh).1
  = (5000 * 2)%float ∧
  stepSize (@stepMany Z Toy.quiet Toy.browser 0 10 Toy.fresh).1 = 5000%float ∧
  stepSize (@stepMany Z Toy.quiet Toy.browser 0 4 Toy.run_to_1).1
  = 5000%float ∧
  (5000 <=? stepSize (@stepMany Z Toy.quiet Toy.browser 0 4 Toy.fresh).1)%float
  = true.
Proof.
  destruct (@batch_size_update Z Toy.quiet Toy.browser Toy.fresh 0 4)
    as (Hdouble & _ & _ & Hgrow).
  destruct (@batch_size_update Z Toy.quiet Toy.browser Toy.fresh 0 10)
    as (_ & Hsame & _ & _).
  destruct (@batch_size_update Z Toy.quiet Toy.browser Toy.run_to_1 0 4)
    as (_ & _ & Hstop & _).
  split_and!.
  - apply Hdouble; reflexivity.
  - apply Hsame; reflexivity.
  - apply Hstop. discriminate.
  - apply Hgrow. reflexivity.
Defined.

Lemma toggleBreak_flips_witness :
  toggleBreak 5 (new_VM 0%Z) = (new_VM 0%Z, Throw TypeError) ∧
  ∃ vm1 vm2 bp2,
    toggleBreak 0x40a3a5 (new_VM 0%Z) = (vm1, Ok tt) ∧
    toggleBreak 0x40a3a5 vm1 = (vm2, Ok tt) ∧
    breakpoints vm2 = <[0x40a3a5%Z := bp2]> (breakpoints (new_VM 0%Z)) ∧
    same_breakpoint bp2
      {| addr := 0x40a3a5; disabled := None; oneShot := None |}.
Proof.
  destruct (toggleBreak_flips (new_VM 0%Z) 5) as [Hmissing _].
  destruct (toggleBreak_flips (new_VM 0%Z) 0x40a3a5) as [_ Hfound].
  split; [apply Hmissing; reflexivity|].
  destruct (Hfound {| addr := 0x40a3a5; disabled := None; oneShot := None |})
    as (vm1 & vm2 & bp2 & H1 & _ & _ & _ & H2 & Hb & Hsame & _);
    [reflexivity|].
  exists vm1, vm2, bp2. split_and!; assumption.
Defined.

(** A buffer shorter than the surface is accepted: on a 1x1 surface, which
    takes 4 bytes, writing the empty buffer succeeds and turns the black
    pixel into four zero bytes.  A buffer of the right length is rejected
    when the surface has no pixels: on a 0x1 surface, which takes 0 bytes,
    writing the empty buffer throws. *)
Lemma write_pixels_accepts_short_buffer :
  contents Toy.plain 0 = Some [Byte.x00; Byte.x00; Byte.x00; Byte.xff] ∧
  (canvas <$> Toy.plain !! 0)
  = Some {| canvas_width := 1; canvas_height := 1; bitmap := [[black]] |} ∧
  length ([] : list Byte.byte) ≠ 4 * 1 * 1 ∧
  (@write_pixels Toy.browser 0 [] Toy.plain).2 = Ok tt ∧
  contents (@write_pixels Toy.browser 0 [] Toy.plain).1 0
  = Some [Byte.x00; Byte.x00; Byte.x00; Byte.x00] ∧
  (@write_pixels Toy.browser 0 [] Toy.plain).1 ≠ Toy.plain ∧
  (canvas <$> Toy.empty_plain !! 0)
  = Some {| canvas_width := 0; canvas_height := 1; bitmap := [[]] |} ∧
  length ([] : list Byte.byte) = 4 * 0 * 1 ∧
  @write_pixels Toy.browser 0 [] Toy.empty_plain
  = (Toy.empty_plain, Throw (DOMException "IndexSizeError")).
Proof. by split_and!. Qed.

Lemma write_pixels_by_length_witness :
  (∃ heap',
     @write_pixels Toy.browser 0 [Byte.x01; Byte.x02; Byte.x03; Byte.xff]
       Toy.plain
     = (heap', Ok tt) ∧
     contents heap' 0 = Some [Byte.x01; Byte.x02; Byte.x03; Byte.xff]) ∧
  @write_pixels Toy.browser 0
    [Byte.x01; Byte.x02; Byte.x03; Byte.xff; Byte.x05] Toy.plain
  = (Toy.plain, Throw RangeError) ∧
  (∃ heap',
     @write_pixels Toy.browser 0 [Byte.x01] Toy.plain = (heap', Ok tt) ∧
     contents heap' 0 = Some [Byte.x00; Byte.x00; Byte.x00; Byte.x00]) ∧
  @write_pixels Toy.browser 0 [] Toy.empty_plain
  = (Toy.empty_plain, Throw (DOMException "IndexSizeError")).
Proof.
  pose (surf := {| canvas := new_canvas 1 1; back := None |}).
  pose (none := {| canvas := new_canvas 0 1; back := None |}).
  split_and!.
  - destruct (@write_pixels_by_length Toy.browser Toy.plain 0 surf
                [Byte.x01; Byte.x02; Byte.x03; Byte.xff] eq_refl)
      as (_ & Hsome).
    destruct Hsome as ((heap' & Hw & _ & Hc & _) & _ & _);
      [cbn; lia|reflexivity|].
    exists heap'. split; [done|]. apply Hc. by repeat constructor.
  - destruct (@write_pixels_by_length Toy.browser Toy.plain 0 surf
                [Byte.x01; Byte.x02; Byte.x03; Byte.xff; Byte.x05] eq_refl)
      as (_ & Hsome).
    destruct Hsome as (_ & Hlong & _); [cbn; lia|].
    apply Hlong. cbn. lia.
  - destruct (@write_pixels_by_length Toy.browser Toy.plain 0 surf
                [Byte.x01] eq_refl)
      as (_ & Hsome).
    destruct Hsome as (_ & _ & Hshort); [cbn; lia|].
    destruct Hshort as (heap' & Hw & Hc & _); [cbn; lia|].
    by exists heap'.
  - destruct (@write_pixels_by_length Toy.browser Toy.empty_plain 0 none
                [] eq_refl)
      as (Hnone & _).
    by apply Hnone.
Defined.

(** Buffers that do not come back after a flip, on a 1x1 primary surface:
    a buffer of the right length whose pixel is transparent leaves the
    primary black, and so does the empty buffer. *)
Lemma flip_composites_back_buffer :
  contents Toy.primary 1 = Some [Byte.x00; Byte.x00; Byte.x00; Byte.xff] ∧
  @get_attached 1 Toy.primary = (Toy.primary, Ok 0) ∧
  ((@write_pixels Toy.browser 0 [Byte.x01; Byte.x02; Byte.x03; Byte.x00] ;;
    @flip Toy.browser 1) Toy.primary).2 = Ok tt ∧
  contents ((@write_pixels Toy.browser 0
               [Byte.x01; Byte.x02; Byte.x03; Byte.x00] ;;
             @flip Toy.browser 1) Toy.primary).1 1
  = Some [Byte.x00; Byte.x00; Byte.x00; Byte.xff] ∧
  ((@write_pixels Toy.browser 0 [] ;; @flip Toy.browser 1) Toy.primary).2
  = Ok tt ∧
  contents ((@write_pixels Toy.browser 0 [] ;; @flip Toy.browser 1)
              Toy.primary).1 1
  = Some [Byte.x00; Byte.x00; Byte.x00; Byte.xff].
Proof. by split_and!. Qed.

Lemma primary_heap_ok : heap_ok Toy.primary.
Proof. apply (@surface_op_ok Toy.browser (OpNew 1 1 true) []), heap_ok_nil. Qed.

Lemma flip_shows_back_buffer_witness :
  ∃ heap',
    (@write_pixels Toy.browser 0 [Byte.x01; Byte.x02; Byte.x03; Byte.xff] ;;
     @flip Toy.browser 1) Toy.primary = (heap', Ok tt) ∧
    contents heap' 1 = Some [Byte.x01; Byte.x02; Byte.x03; Byte.xff].
Proof.
  apply (@flip_shows_back_buffer Toy.browser Toy.primary 1
           {| canvas := new_canvas 1 1; back := Some 0 |} 0).
  - apply primary_heap_ok.
  - reflexivity.
  - reflexivity.
  - discriminate.
  - reflexivity.
  - by repeat constructor.
Defined.

(** A primary surface on which [flip] fails: the constructor accepts a
    width of zero, [get_attached] returns the back buffer, and [flip]
    throws, from [drawImage], since the back buffer's canvas has no
    pixels. *)
Lemma flip_throws_on_empty_surface :
  new_Surface 0 1 true [] = (Toy.empty_primary, Ok 1) ∧
  @get_attached 1 Toy.empty_primary = (Toy.empty_primary, Ok 0) ∧
  @flip Toy.browser 1 Toy.empty_primary
  = (Toy.empty_primary, Throw (DOMException "InvalidStateError")).
Proof. by split_and!. Qed.


(** Why the sessions above add their breakpoints enabled: [addBreak] does
    not read the [disabled] flag, so a breakpoint object made with the
    flag already set, which no caller makes, would have its address
    registered all the same. *)
Lemma addBreak_disabled_out_of_sync :
  1%Z ∈ break_set (emu Toy.added_disabled) ∧
  breakpoints Toy.added_disabled !! 1%Z = Some Toy.disabled_at_1 ∧
  ¬ (1%Z ∈ break_set (emu Toy.added_disabled) ↔
     ∃ bp, breakpoints Toy.added_disabled !! 1%Z = Some bp ∧
           truthy (disabled bp) = false).
Proof.
  assert (1%Z ∈ break_set (emu Toy.added_disabled)) as Hin
    by (cbn; set_solver).
  split_and!; [done|reflexivity|].
  intros [Hsync _]. destruct (Hsync Hin) as (bp & Hbp & Hen).
  cbn in Hbp. rewrite lookup_insert_eq in Hbp. by injection Hbp as <-.
Qed.

Lemma break_set_in_sync_witness :
  0x40a3a5%Z ∈ break_set
    (emu (@driver_ops Z Toy.quiet Toy.browser Toy.session (new_VM 0%Z))) ↔
  ∃ bp,
    breakpoints (@driver_ops Z Toy.quiet Toy.browser Toy.session (new_VM 0%Z))
      !! 0x40a3a5%Z = Some bp ∧
    truthy (disabled bp) = false.
Proof.
  apply (@break_set_in_sync Z Toy.quiet Toy.browser 0%Z Toy.session 0x40a3a5).
  repeat constructor.
Defined.

(** ** Whole sessions, write by write *)

Section SessionFacts.

Context {Cpu : Type} {engine : Engine Cpu} {browser : Browser}.

Implicit Types (vm : VM Cpu) (bp : Breakpoint) (a : Z).

Lemma run_calls_touches calls final vm :
  rtc touches vm (run_calls calls final vm).1.
Proof.
  revert vm. induction calls as [|[c h] calls IH]; intros vm.
  - apply rtc_once, touch_emu.
  - cbn [run_calls]. unfold bind at 1 2. unfold modify at 1.
    eapply rtc_l; [apply (touch_emu (with_cpu c))|].
    eapply rtc_l; [apply (touch_host h)|].
    destruct (host_call h _) as [vm1 [[]|e]]; cbn [fst]; [apply IH|done].
Qed.

Lemma checkBreak_touches vm : rtc touches vm (checkBreak vm).1.
Proof.
  destruct (exitCode vm) as [code|] eqn:He.
  - by rewrite (checkBreak_exited _ _ He).
  - rewrite (checkBreak_running _ He).
    destruct (breakpoints vm !! _) as [bp|]; [|done].
    destruct (truthy (disabled bp)); [done|].
    destruct (truthy (oneShot bp)); cbn [fst].
    + eapply rtc_l; [apply (touch_breakpoints (delete (addr bp)))|].
      apply rtc_once, touch_emu.
    + apply rtc_once, touch_tab.
Qed.

Lemma driver_op_touches op vm : rtc touches vm (driver_op op vm).
Proof.
  destruct op as [bp|a|a| |start end_]; cbn [driver_op].
  - eapply rtc_l; [apply (touch_breakpoints <[addr bp := bp]>)|].
    apply rtc_once, touch_emu.
  - eapply rtc_l; [apply (touch_breakpoints (delete a))|].
    apply rtc_once, touch_emu.
  - destruct (breakpoints vm !! a) as [bp|] eqn:Ha.
    + rewrite (toggleBreak_found _ _ _ Ha). cbn [fst].
      eapply rtc_l; [apply (touch_breakpoints <[a := toggled bp]>)|].
      apply rtc_once, touch_emu.
    + by rewrite (toggleBreak_missing _ _ Ha).
  - pose proof (run_calls_touches
                  (host_calls (cpu_step (break_set (emu vm)) (cpu (emu vm))))
                  (final (cpu_step (break_set (emu vm)) (cpu (emu vm)))) vm)
      as Hrun.
    change (run_calls _ _ vm) with (emu_step vm) in Hrun.
    destruct (step_state vm) as [-> | ->]; [done|].
    etrans; [apply Hrun|apply checkBreak_touches].
  - assert (rtc touches vm (emu_step_many (stepSize vm) vm).1) as Hrun.
    { unfold emu_step_many, bind, gets, run, ret.
      destruct (cpu_step_many _ _ _) as [r ranAll].
      pose proof (run_calls_touches (host_calls r) (final r) vm) as Hr.
      by destruct (run_calls _ _ vm) as [vm1 [[]|e]]. }
    destruct (stepMany_state start end_ vm) as [[_ ->]|[_ [-> | ->]]];
      [|done|by etrans; [apply Hrun|apply checkBreak_touches]].
    etrans; [apply Hrun|]. unfold tuned.
    eapply rtc_l; [apply touch_instrPerMs|].
    destruct (_ <? _)%float; [apply rtc_once, touch_stepSize|done].
Qed.

Lemma driver_ops_touches ops vm : rtc touches vm (driver_ops ops vm).
Proof.
  revert vm. induction ops as [|op ops IH]; intros vm; [done|].
  etrans; [apply (driver_op_touches op)|apply IH].
Qed.

(** An invariant kept by every single write is kept by every run. *)
Lemma invariant_of_runs (I : VM Cpu → Prop) :
  (∀ vm vm', touches vm vm' → I vm → I vm') →
  ∀ ops vm, I vm → I (driver_ops ops vm).
Proof.
  intros Hstep ops vm HI.
  induction (driver_ops_touches ops vm) as [|vm1 vm2 vm3 H12 _ IH]; [done|].
  apply IH. by apply (Hstep vm1).
Qed.

End SessionFacts.

Section SessionInvariants.

Context {Cpu : Type} {engine : Engine Cpu} {browser : Browser}.

Implicit Types (vm : VM Cpu) (bp : Breakpoint) (a : Z).

Lemma create_surface_cases opts vm :
  let heap' := (new_Surface (wasm.width opts) (wasm.height opts)
                  (wasm.primary opts) (heap vm)).1 in
  (create_surface opts vm).1 = with_heap heap' vm ∨
  wasm.primary opts = true ∧
  ∃ w, last (windows vm) = Some w ∧
       (create_surface opts vm).1
       = set_windows
           <[length (windows vm) - 1 := set_surface (S (length (heap vm))) w]>
           (with_heap heap' vm).
Proof.
  intros heap'. unfold heap'. clear heap'.
  destruct (wasm.primary opts) eqn:Hp.
  - destruct (last (windows vm)) as [w0|] eqn:Hlast.
    + right. split; [done|]. exists w0. split; [done|].
      assert (array_get (windows vm) (Z.of_nat (length (windows vm)) - 1)
              = Some w0) as Hget.
      { unfold array_get.
        assert ((Z.of_nat (length (windows vm)) - 1 <? 0) = false)%Z as ->.
        { apply Z.ltb_ge. destruct (windows vm); [done|]. cbn [length]. lia. }
        rewrite last_lookup in Hlast. rewrite <- Hlast. f_equal. lia. }
      unfold create_surface, bind at 1, on_heap.
      rewrite Hp, new_Surface_primary.
      unfold bind, gets, modify, ret. cbn [windows fst snd].
      rewrite Hget. cbn [fst]. do 2 f_equal. lia.
    + left.
      assert (array_get (windows vm) (Z.of_nat (length (windows vm)) - 1)
              = None) as Hget.
      { apply last_None in Hlast. by rewrite Hlast. }
      unfold create_surface, bind at 1, on_heap.
      rewrite Hp, new_Surface_primary.
      unfold bind, gets, throw. cbn [windows fst snd].
      rewrite Hget. reflexivity.
  - left. unfold create_surface, bind at 1, on_heap.
    rewrite Hp, new_Surface_plain. reflexivity.
Qed.

Lemma host_call_display h vm :
  let vm' := (host_call h vm).1 in
  (∃ buf, h = HostWrite buf ∧ windows vm' = windows vm ∧ heap vm' = heap vm ∧
          stdout vm' = stdout vm +:+ decode buf ∧
          page_stdout (page vm') = stdout vm') ∨
  (h = HostCreateWindow ∧ heap vm' = heap vm ∧ stdout vm' = stdout vm ∧
   page vm' = page vm ∧
   windows vm' = windows vm ++ [new_Window (length (windows vm) + 1)]) ∨
  (∃ opts, h = HostCreateSurface opts ∧
           vm' = (create_surface opts vm).1) ∨
  (windows vm' = windows vm ∧ heap vm' = heap vm ∧ stdout vm' = stdout vm ∧
   page vm' = page vm).
Proof.
  destruct h as [code|buf| | |opts]; cbn zeta.
  - by right; right; right.
  - left. by exists buf.
  - by right; right; right.
  - right; left. done.
  - right; right; left. exists opts. split; [done|].
    unfold host_call, bind. by destruct (create_surface opts vm) as [vm1 [s|e]].
Qed.

Lemma touches_exitCode vm vm' :
  touches vm vm' → exitCode vm ≠ None → exitCode vm' ≠ None.
Proof.
  destruct 1 as [f vm|f vm|tab vm|x vm|x vm|h vm]; try done.
  apply (host_call_frame h vm).
Qed.

Lemma touches_stdout vm vm' :
  touches vm vm' →
  page_stdout (page vm) = stdout vm → page_stdout (page vm') = stdout vm'.
Proof.
  destruct 1 as [f vm|f vm|tab vm|x vm|x vm|h vm]; try done.
  intros Hm.
  destruct (host_call_display h vm)
    as [(buf & _ & _ & _ & _ & Hp)|[(_ & _ & Hs & Hp & _)
       |[(opts & _ & Heq)|(_ & _ & Hs & Hp)]]].
  - done.
  - by rewrite Hp, Hs.
  - rewrite Heq.
    by destruct (create_surface_cases opts vm) as [->|(_ & w & _ & ->)].
  - by rewrite Hp, Hs.
Qed.

Lemma touches_numbered vm vm' :
  touches vm vm' → windows_numbered vm → windows_numbered vm'.
Proof.
  destruct 1 as [f vm|f vm|tab vm|x vm|x vm|h vm]; try done.
  intros Hn.
  destruct (host_call_display h vm)
    as [(buf & _ & Hw & _)|[(_ & _ & _ & _ & Hw)
       |[(opts & _ & Heq)|(Hw & _)]]].
  - unfold windows_numbered. by rewrite Hw.
  - intros i w. rewrite Hw. intros Hi.
    apply lookup_app_Some in Hi as [Hi|[Hge Hi]]; [by apply Hn|].
    destruct (i - length (windows vm)) as [|j] eqn:Hj; [|by destruct j].
    injection Hi as <-. cbn. lia.
  - rewrite Heq.
    destruct (create_surface_cases opts vm) as [->|(_ & w0 & Hlast & ->)];
      [done|].
    + intros i w. cbn [windows set_windows with_heap]. intros Hi.
      apply list_lookup_insert_Some in Hi as [(<- & <- & Hlt)|[Hne Hi]];
        [|by apply Hn].
      cbn. apply Hn. by rewrite last_lookup in Hlast;
        replace (Nat.pred (length (windows vm)))
          with (length (windows vm) - 1) in Hlast by lia.
  - unfold windows_numbered. by rewrite Hw.
Qed.

Lemma touches_bound vm vm' :
  touches vm vm' → windows_bound vm → windows_bound vm'.
Proof.
  destruct 1 as [f vm|f vm|tab vm|x vm|x vm|h vm]; try done.
  intros Hb.
  destruct (host_call_display h vm)
    as [(buf & _ & Hw & Hh & _)|[(_ & Hh & _ & _ & Hw)
       |[(opts & _ & Heq)|(Hw & Hh & _)]]].
  - unfold windows_bound. by rewrite Hw, Hh.
  - intros i w s. rewrite Hw, Hh. intros Hi.
    apply lookup_app_Some in Hi as [Hi|[Hge Hi]]; [by apply (Hb i)|].
    destruct (i - length (windows vm)) as [|j] eqn:Hj; [|by destruct j].
    by injection Hi as <-.
  - rewrite Heq.
    pose proof (surface_op_extends
                  (OpNew (wasm.width opts) (wasm.height opts)
                     (wasm.primary opts)) (heap vm)) as Hext.
    cbn [surface_op] in Hext.
    assert (∀ i w s, windows vm !! i = Some w → surface w = Some s →
              ∃ surf b,
                (new_Surface (wasm.width opts) (wasm.height opts)
                   (wasm.primary opts) (heap vm)).1 !! s = Some surf ∧
                back surf = Some b) as Hold.
    { intros i w s Hi Hs. destruct (Hb i w s Hi Hs) as (surf & b & Hsurf & Hback).
      destruct (Hext s surf Hsurf) as (surf' & Hsurf' & Hback' & _).
      exists surf', b. split; [done|congruence]. }
    destruct (create_surface_cases opts vm) as [->|(Hp & w0 & Hlast & ->)].
    + exact Hold.
    + intros i w s. cbn [windows heap set_windows with_heap]. intros Hi.
      apply list_lookup_insert_Some in Hi as [(<- & <- & Hlt)|[Hne Hi]];
        [|by apply (Hold i)].
      cbn. intros [= <-]. rewrite Hp, new_Surface_primary. cbn [fst].
      exists {| canvas := new_canvas (wasm.width opts) (wasm.height opts);
                back := Some (length (heap vm)) |}, (length (heap vm)).
      split; [|done]. rewrite lookup_app_r by lia.
      by replace (S (length (heap vm)) - length (heap vm)) with 1 by lia.
  - unfold windows_bound. by rewrite Hw, Hh.
Qed.

End SessionInvariants.

Section SessionTheorems.

Context {Cpu : Type} {engine : Engine Cpu} {browser : Browser}.

Implicit Types (vm : VM Cpu) (bp : Breakpoint) (a : Z).

Lemma init_windows_numbered (c : Cpu) : windows_numbered (new_VM c).
Proof. by intros i w. Qed.

Lemma init_windows_bound (c : Cpu) : windows_bound (new_VM c).
Proof. by intros i w s. Qed.

Lemma driver_ops_table_wf ops vm : table_wf vm → table_wf (driver_ops ops vm).
Proof.
  revert vm. induction ops as [|op ops IH]; intros vm Hwf; [done|].
  apply IH. destruct op as [bp|a|a| |start end_]; cbn [driver_op].
  - by apply addBreak_table_wf.
  - by apply delBreak_table_wf.
  - by apply toggleBreak_table_wf.
  - by apply step_table_wf.
  - pose proof (emu_step_many_frame (stepSize vm) vm) as (Hb & _).
    destruct (stepMany_table start end_ vm) as [[Hb' _]| ->].
    + by apply (table_wf_frame vm).
    + apply checkBreak_table_wf. by apply (table_wf_frame vm).
Qed.

(** X1.  In every session, whatever is added, removed, toggled or hit,
    each entry of the breakpoint table sits under the address it
    carries. *)
Theorem table_keyed_by_address (c : Cpu) ops a bp :
  breakpoints (driver_ops ops (new_VM c)) !! a = Some bp → addr bp = a.
Proof.
  apply (driver_ops_table_wf ops (new_VM c)), new_VM_invariant.
Qed.

(** X2.  An exit code, once set, is never unset: no driver call and no
    host call made by the engine clears it. *)
Theorem exitCode_stays_set ops vm :
  is_Some (exitCode vm) → is_Some (exitCode (driver_ops ops vm)).
Proof.
  rewrite <-!not_eq_None_Some.
  apply (invariant_of_runs (λ vm, exitCode vm ≠ None) touches_exitCode).
Qed.

(** X3.  The page's copy of the output is always the driver's output. *)
Theorem page_shows_stdout (c : Cpu) ops :
  page_stdout (page (driver_ops ops (new_VM c)))
  = stdout (driver_ops ops (new_VM c)).
Proof.
  by apply (invariant_of_runs (λ vm, page_stdout (page vm) = stdout vm)
              touches_stdout ops (new_VM c)).
Qed.

(** X4.  Windows are numbered in creation order: the window at position
    [i] of the session has key [i + 1], so keys are unique. *)
Theorem window_keys (c : Cpu) ops i w :
  windows (driver_ops ops (new_VM c)) !! i = Some w → key w = i + 1.
Proof.
  apply (invariant_of_runs windows_numbered touches_numbered ops),
    init_windows_numbered.
Qed.

(** X5.  A surface bound to a window is a live surface with a back
    buffer. *)
Theorem window_surfaces (c : Cpu) ops i w s :
  windows (driver_ops ops (new_VM c)) !! i = Some w →
  surface w = Some s →
  ∃ surf b, heap (driver_ops ops (new_VM c)) !! s = Some surf ∧
            back surf = Some b.
Proof.
  apply (invariant_of_runs windows_bound touches_bound ops),
    init_windows_bound.
Qed.

End SessionTheorems.

Lemma table_keyed_by_address_witness :
  addr {| addr := 0x40a3a5; disabled := Some true; oneShot := None |}
  = 0x40a3a5%Z.
Proof.
  apply (@table_keyed_by_address Z Toy.quiet Toy.browser 0%Z Toy.session).
  reflexivity.
Defined.

Lemma exitCode_stays_set_witness :
  is_Some
    (exitCode (@driver_ops Z Toy.quiet Toy.browser Toy.session Toy.exited)).
Proof.
  apply (@exitCode_stays_set Z Toy.quiet Toy.browser Toy.session Toy.exited).
  eexists. reflexivity.
Defined.

Lemma window_keys_witness :
  key {| key := 2; title := ""; width := 0; height := 0; surface := Some 1 |}
  = 1 + 1.
Proof.
  apply (@window_keys Z Samples.windowing Samples.browser 0%Z
           Samples.three_steps).
  reflexivity.
Defined.

Lemma window_surfaces_witness :
  ∃ surf b,
    heap (@driver_ops Z Samples.windowing Samples.browser
            Samples.three_steps (new_VM 0%Z)) !! 1 = Some surf ∧
    back surf = Some b.
Proof.
  apply (@window_surfaces Z Samples.windowing Samples.browser 0%Z
           Samples.three_steps 1
           {| key := 2; title := ""; width := 0; height := 0;
              surface := Some 1 |}).
  - reflexivity.
  - reflexivity.
Defined.

(** ** Stepping and the breakpoint table *)

Section SteppingTheorems.

Context {Cpu : Type} {engine : Engine Cpu} {browser : Browser}.

Implicit Types (vm : VM Cpu) (bp : Breakpoint) (a : Z).

(** X6.  A single step whose engine call returns never throws, and it
    reports "stopped" exactly when the program has exited or an enabled
    breakpoint sits at the new instruction pointer. *)
Theorem step_reports vm vm1 :
  emu_step vm = (vm1, Ok tt) →
  ∃ vm2 b,
    step vm = (vm2, Ok b) ∧
    (b = false ↔
       exitCode vm1 ≠ None ∨
       ∃ bp, breakpoints vm1 !! eip (cpu (emu vm1)) = Some bp ∧
             truthy (disabled bp) = false).
Proof.
  intros Hstep. rewrite step_unfold, Hstep.
  destruct (exitCode vm1) as [code|] eqn:Hcode.
  { rewrite (checkBreak_exited vm1 code Hcode).
    exists vm1, false. split; [done|]. split; [by left|done]. }
  rewrite (checkBreak_running vm1 Hcode).
  destruct (breakpoints vm1 !! eip (cpu (emu vm1))) as [bp|] eqn:Hbp.
  - destruct (truthy (disabled bp)) eqn:Hdis.
    + exists vm1, true. split; [done|]. split; [done|].
      intros [?|(bp' & [= <-] & ?)]; [done|congruence].
    + destruct (truthy (oneShot bp)); eexists _, false;
        (split; [done|]); (split; [|done]); intros _; right; by exists bp.
  - exists vm1, true. split; [done|]. split; [done|].
    by intros [?|(bp' & ? & ?)].
Qed.

(** X7.  A hit on an ordinary (not one-shot) breakpoint stops the step,
    keeps the breakpoint in the table and in the engine's break set, and
    brings the breakpoints tab to the front. *)
Theorem regular_breakpoint_stays vm vm1 bp :
  emu_step vm = (vm1, Ok tt) →
  exitCode vm1 = None →
  breakpoints vm !! eip (cpu (emu vm1)) = Some bp →
  truthy (disabled bp) = false →
  truthy (oneShot bp) = false →
  ∃ vm2,
    step vm = (vm2, Ok false) ∧
    breakpoints vm2 = breakpoints vm ∧
    break_set (emu vm2) = break_set (emu vm) ∧
    cpu (emu vm2) = cpu (emu vm1) ∧
    selectedTab (page vm2) = "breakpoints".
Proof.
  intros Hstep Hcode Hbp Hdis Hone.
  pose proof (emu_step_frame vm) as (Hb & Hs & _). rewrite Hstep in Hb, Hs.
  cbn [fst] in Hb, Hs.
  rewrite step_unfold, Hstep, (checkBreak_running vm1 Hcode), Hb, Hbp, Hdis,
    Hone.
  eexists. split; [done|]. by cbn.
Qed.

(** X8.  Once the program has exited, a batch still runs the engine, and
    [stepMany] reports whatever the engine reports: "keep going" after a
    batch that ran to its end, "stopped" after one cut short. *)
Theorem stepMany_after_exit start end_ vm vm1 ranAll :
  exitCode vm ≠ None →
  emu_step_many (stepSize vm) vm = (vm1, Ok ranAll) →
  (stepMany start end_ vm).2 = Ok ranAll.
Proof.
  intros Hcode Hrun. rewrite stepMany_unfold, Hrun.
  destruct ranAll; [done|].
  pose proof (emu_step_many_frame (stepSize vm) vm) as (_ & _ & _ & _ & Hx).
  rewrite Hrun in Hx. cbn [fst] in Hx.
  destruct (exitCode vm1) as [code|] eqn:Hcode1; [|by destruct (Hx Hcode)].
  by rewrite (checkBreak_exited vm1 code Hcode1).
Qed.

(** X9.  Run-to-address: when the batch after [runTo a] is cut short at
    [a], [stepMany] stops there, and any breakpoint the user had at [a] is
    gone with the one-shot one: the table is the old one without [a], and
    so is the engine's break set. *)
Theorem runTo_hit_forgets a start end_ vm vm1 :
  emu_step_many (stepSize vm) (runTo a vm).1 = (vm1, Ok false) →
  exitCode vm1 = None →
  eip (cpu (emu vm1)) = a →
  ∃ vm2,
    stepMany start end_ (runTo a vm).1 = (vm2, Ok false) ∧
    breakpoints vm2 = delete a (breakpoints vm) ∧
    break_set (emu vm2) = break_set (emu vm) ∖ {[a]} ∧
    cpu (emu vm2) = cpu (emu vm1).
Proof.
  intros Hrun Hcode Hip.
  pose proof (emu_step_many_frame (stepSize vm) (runTo a vm).1) as (Hb & Hs & _).
  rewrite Hrun in Hb, Hs. cbn [fst] in Hb, Hs.
  unfold runTo in Hb, Hs. rewrite addBreak_unfold in Hb, Hs.
  cbn in Hb, Hs.
  rewrite stepMany_unfold.
  replace (stepSize (runTo a vm).1) with (stepSize vm) by reflexivity.
  rewrite Hrun, (checkBreak_running vm1 Hcode), Hip, Hb, lookup_insert_eq.
  cbn [truthy disabled oneShot addr]. rewrite delBreak_unfold.
  eexists. split; [done|]. cbn. rewrite Hb, Hs, delete_insert_eq.
  split_and!; [done| |done]. set_solver.
Qed.

(** X10.  Removing is forgiving and undoes adding: [delBreak] at an
    address with no breakpoint changes nothing, and adding a breakpoint
    at a free address and removing it again gives back the session that
    was there before. *)
Theorem delBreak_undoes_addBreak bp vm :
  breakpoints vm !! addr bp = None →
  addr bp ∉ break_set (emu vm) →
  delBreak (addr bp) vm = (vm, Ok tt) ∧
  (addBreak bp ;; delBreak (addr bp)) vm = (vm, Ok tt).
Proof.
  intros Hfree Hunset.
  assert (break_set (emu vm) ∖ {[addr bp]} = break_set (emu vm)) as Hs
    by set_solver.
  assert (({[addr bp]} ∪ break_set (emu vm)) ∖ {[addr bp]}
          = break_set (emu vm)) as Hs' by set_solver.
  split.
  - rewrite delBreak_unfold. destruct vm as [[c bs] t ? ? ? ? ? ? ?].
    cbn in *. unfold set_emu, set_breakpoints, breakpoint_clear. cbn.
    by rewrite Hs, delete_id.
  - unfold bind at 1. rewrite addBreak_unfold, delBreak_unfold.
    destruct vm as [[c bs] t ? ? ? ? ? ? ?].
    cbn in *. unfold set_emu, set_breakpoints, breakpoint_clear,
      breakpoint_add. cbn.
    by rewrite Hs', delete_insert_eq, delete_id.
Qed.

(** X11.  The table holds one breakpoint per address: adding a second
    breakpoint at an address replaces the first, flags and all. *)
Theorem addBreak_replaces bp bp' vm :
  addr bp = addr bp' →
  (addBreak bp ;; addBreak bp') vm = addBreak bp' vm.
Proof.
  intros Ha. unfold bind at 1. rewrite !addBreak_unfold, Ha.
  destruct vm as [[c bs] t ? ? ? ? ? ? ?].
  unfold set_emu, set_breakpoints, breakpoint_add. cbn.
  rewrite insert_insert_eq. do 3 f_equal. set_solver.
Qed.

End SteppingTheorems.

Lemma step_reports_witness :
  ∃ vm2 b,
    @step Z Toy.quiet Toy.browser Toy.run_to_1 = (vm2, Ok b) ∧
    (b = false ↔
       exitCode (@emu_step Z Toy.quiet Toy.browser Toy.run_to_1).1 ≠ None ∨
       ∃ bp,
         breakpoints (@emu_step Z Toy.quiet Toy.browser Toy.run_to_1).1
           !! 1%Z = Some bp ∧
         truthy (disabled bp) = false).
Proof.
  apply (@step_reports Z Toy.quiet Toy.browser Toy.run_to_1
           (@emu_step Z Toy.quiet Toy.browser Toy.run_to_1).1).
  reflexivity.
Defined.

Lemma regular_breakpoint_stays_witness :
  ∃ vm2,
    @step Z Toy.quiet Toy.browser (new_VM 0x40a3a4%Z) = (vm2, Ok false) ∧
    breakpoints vm2 = breakpoints (new_VM 0x40a3a4%Z) ∧
    break_set (emu vm2) = break_set (emu (new_VM 0x40a3a4%Z)) ∧
    cpu (emu vm2) = 0x40a3a5%Z ∧
    selectedTab (page vm2) = "breakpoints".
Proof.
  apply (@regular_breakpoint_stays Z Toy.quiet Toy.browser
           (new_VM 0x40a3a4%Z)
           (@emu_step Z Toy.quiet Toy.browser (new_VM 0x40a3a4%Z)).1
           {| addr := 0x40a3a5; disabled := None; oneShot := None |});
    reflexivity.
Defined.

Lemma stepMany_after_exit_witness :
  (@stepMany Z Toy.quiet Toy.browser 0 4 Toy.exited).2 = Ok true.
Proof.
  apply (@stepMany_after_exit Z Toy.quiet Toy.browser 0 4 Toy.exited
           (@emu_step_many Z Toy.quiet Toy.browser 5000 Toy.exited).1 true).
  - discriminate.
  - reflexivity.
Defined.

Lemma runTo_hit_forgets_witness :
  ∃ vm2,
    @stepMany Z Toy.quiet Toy.browser 0 4 (runTo 1 Toy.fresh).1
    = (vm2, Ok false) ∧
    breakpoints vm2 = delete 1%Z (breakpoints Toy.fresh) ∧
    break_set (emu vm2) = break_set (emu Toy.fresh) ∖ {[1%Z]} ∧
    cpu (emu vm2) = 1%Z.
Proof.
  apply (@runTo_hit_forgets Z Toy.quiet Toy.browser 1 0 4 Toy.fresh
           (@emu_step_many Z Toy.quiet Toy.browser 5000
              (runTo 1 Toy.fresh).1).1);
    reflexivity.
Defined.

Lemma delBreak_undoes_addBreak_witness :
  @delBreak Z 1 Toy.fresh = (Toy.fresh, Ok tt) ∧
  (@addBreak Z Toy.disabled_at_1 ;; delBreak 1) Toy.fresh
  = (Toy.fresh, Ok tt).
Proof.
  apply (@delBreak_undoes_addBreak Z Toy.disabled_at_1 Toy.fresh).
  - reflexivity.
  - apply not_elem_of_empty.
Defined.

Lemma addBreak_replaces_witness :
  (@addBreak Z {| addr := 1; disabled := None; oneShot := Some true |} ;;
   addBreak Toy.disabled_at_1) Toy.fresh
  = addBreak Toy.disabled_at_1 Toy.fresh.
Proof.
  apply (@addBreak_replaces Z
           {| addr := 1; disabled := None; oneShot := Some true |}
           Toy.disabled_at_1 Toy.fresh).
  reflexivity.
Defined.

Section NeverAdds.

Context {Cpu : Type} {engine : Engine Cpu} {browser : Browser}.

Implicit Types (vm : VM Cpu).

Lemma checkBreak_subseteq vm :
  breakpoints (checkBreak vm).1 ⊆ breakpoints vm ∧
  break_set (emu (checkBreak vm).1) ⊆ break_set (emu vm).
Proof.
  destruct (checkBreak_cases vm) as [->|[[a ->]|[f ->]]]; [done| |done].
  rewrite delBreak_unfold. cbn. split; [apply delete_subseteq|set_solver].
Qed.

(** X25.  Stepping never plants a breakpoint: after [step] or [stepMany]
    the table holds nothing it did not hold before, and the engine's break
    set has no new address. *)
Theorem stepping_never_adds_breakpoints vm start end_ :
  breakpoints (step vm).1 ⊆ breakpoints vm ∧
  break_set (emu (step vm).1) ⊆ break_set (emu vm) ∧
  breakpoints (stepMany start end_ vm).1 ⊆ breakpoints vm ∧
  break_set (emu (stepMany start end_ vm).1) ⊆ break_set (emu vm).
Proof.
  assert (∀ vm1, driver_frame vm vm1 →
            breakpoints (checkBreak vm1).1 ⊆ breakpoints vm ∧
            break_set (emu (checkBreak vm1).1) ⊆ break_set (emu vm)) as Hcheck.
  { intros vm1 (Hb & Hs & _). rewrite <-Hb, <-Hs. apply checkBreak_subseteq. }
  assert (breakpoints (step vm).1 ⊆ breakpoints vm ∧
          break_set (emu (step vm).1) ⊆ break_set (emu vm)) as [? ?].
  { pose proof (emu_step_frame vm) as Hf.
    destruct (step_state vm) as [-> | ->]; [|by apply Hcheck].
    destruct Hf as (-> & -> & _). done. }
  assert (breakpoints (stepMany start end_ vm).1 ⊆ breakpoints vm ∧
          break_set (emu (stepMany start end_ vm).1) ⊆ break_set (emu vm))
    as [? ?]; [|done].
  destruct (stepMany_table start end_ vm) as [[-> ->]| ->]; [done|].
  apply Hcheck, emu_step_many_frame.
Qed.

End NeverAdds.

(** ** Surfaces over whole runs *)

Section SurfaceTheorems.

Context {browser : Browser}.

(** X12.  Every heap built by calls of the [Surface] class, starting from
    no surface at all, is well formed: each bitmap has the shape its canvas
    announces, and each back buffer is another, live surface of the same
    size. *)
Theorem surface_heaps_well_formed ops : heap_ok (surface_ops ops []).
Proof. apply surface_ops_ok, heap_ok_nil. Qed.

(** X13.  A surface, once made, stays: whatever surface calls follow, its
    reference stays live and it keeps its back buffer and its size. *)
Theorem surfaces_stay_live ops heap r s :
  heap !! r = Some s →
  ∃ s', surface_ops ops heap !! r = Some s' ∧
        back s' = back s ∧
        canvas_width (canvas s') = canvas_width (canvas s) ∧
        canvas_height (canvas s') = canvas_height (canvas s).
Proof.
  intros Hr. destruct (surface_ops_extends ops heap r s Hr)
    as (s' & Hs' & Hback & Hw & Hh).
  by exists s'.
Qed.


(** X15.  The last write wins: of two buffers written to a surface one
    after the other, neither longer than the bitmap, nothing of the first
    is left; the heap is the one the second write alone gives. *)
Theorem write_pixels_overwrites heap s surf pixels1 pixels2 :
  heap !! s = Some surf →
  length pixels1 ≤ image_size (canvas surf) →
  length pixels2 ≤ image_size (canvas surf) →
  (write_pixels s pixels1 ;; write_pixels s pixels2) heap
  = write_pixels s pixels2 heap.
Proof.
  intros Hs H1 H2. unfold bind at 1.
  destruct (decide (0 < image_size (canvas surf))) as [Hpos|Hz].
  - rewrite (write_pixels_ok heap s surf pixels1 _ Hs
               (ImageData_set_fits _ _ Hpos H1)).
    rewrite (write_pixels_ok heap s surf pixels2 _ Hs
               (ImageData_set_fits _ _ Hpos H2)).
    erewrite write_pixels_ok; cycle 1.
    { by rewrite list_lookup_alter_eq, Hs. }
    { cbn [canvas]. by apply ImageData_set_fits. }
    f_equal. rewrite list_alter_alter_eq. by apply list_alter_ext.
  - assert (image_size (canvas surf) = 0) as Hz' by lia.
    by rewrite !(write_pixels_throw heap s surf _ _ Hs
                   (ImageData_set_empty _ _ Hz')).
Qed.

(** X16.  [flip] copies, it does not swap: on a surface with a back
    buffer the call succeeds, unless the surface has no pixels and
    [drawImage] throws, and either way it changes the flipped surface
    only, so the back buffer still reads as before. *)
Theorem flip_keeps_back_buffer heap p sp b :
  heap_ok heap →
  heap !! p = Some sp → back sp = Some b →
  ∃ heap',
    flip p heap
    = (heap', if bool_decide (image_size (canvas sp) = 0)
              then Throw (DOMException "InvalidStateError") else Ok tt) ∧
    contents heap' b = contents heap b ∧
    ∀ r, r ≠ p → heap' !! r = heap !! r.
Proof.
  intros Hok Hp Hb.
  destruct (Hok p sp Hp) as [_ Hback].
  destruct (Hback b Hb) as (Hne & sb & Hsb & Hsw & Hsh).
  assert (image_size (canvas sb) = image_size (canvas sp)) as Hsz
    by (unfold image_size; congruence).
  destruct (drawImage_cases (canvas sb) (canvas sp)) as [[Hz Hd]|[Hpos Hd]].
  - rewrite (flip_throw _ _ _ _ _ _ Hp Hb Hsb Hd).
    rewrite bool_decide_eq_true_2 by lia. by eexists.
  - rewrite (flip_primary _ _ _ _ _ _ Hp Hb Hsb Hd).
    rewrite bool_decide_eq_false_2 by lia.
    eexists. split; [done|]. split.
    + unfold contents. by rewrite list_lookup_alter_ne.
    + intros r Hr. by rewrite list_lookup_alter_ne.
Qed.

End SurfaceTheorems.

Lemma surfaces_stay_live_witness :
  ∃ s', @surface_ops Toy.browser
          [OpWritePixels 0 [Byte.x01; Byte.x02; Byte.x03; Byte.xff]; OpFlip 1]
          Toy.primary !! 1 = Some s' ∧
        back s' = Some 0 ∧
        canvas_width (canvas s') = 1 ∧
        canvas_height (canvas s') = 1.
Proof.
  apply (@surfaces_stay_live Toy.browser
           [OpWritePixels 0 [Byte.x01; Byte.x02; Byte.x03; Byte.xff]; OpFlip 1]
           Toy.primary 1
           {| canvas := new_canvas 1 1; back := Some 0 |}).
  reflexivity.
Defined.

Lemma write_pixels_overwrites_witness :
  (@write_pixels Toy.browser 0 [Byte.x01; Byte.x02; Byte.x03; Byte.xff] ;;
   @write_pixels Toy.browser 0 [Byte.x09]) Toy.plain
  = @write_pixels Toy.browser 0 [Byte.x09] Toy.plain.
Proof.
  apply (@write_pixels_overwrites Toy.browser Toy.plain 0
           {| canvas := new_canvas 1 1; back := None |}).
  - reflexivity.
  - vm_compute. lia.
  - vm_compute. lia.
Defined.

Lemma flip_keeps_back_buffer_witness :
  ∃ heap', @flip Toy.browser 1 Toy.primary = (heap', Ok tt) ∧
           contents heap' 0 = contents Toy.primary 0 ∧
           ∀ r, r ≠ 1 → heap' !! r = Toy.primary !! r.
Proof.
  apply (@flip_keeps_back_buffer Toy.browser Toy.primary 1
           {| canvas := new_canvas 1 1; back := Some 0 |} 0).
  - exact primary_heap_ok.
  - reflexivity.
  - reflexivity.
Defined.

(** ** The earlier run loop *)

Section LegacyPageFacts.

Context {Cpu : Type} {x : Legacy.X86 Cpu}.

Implicit Types (vm : Legacy.VM Cpu) (a : Z).

Lemma legacy_step_continue vm vm1 :
  Legacy.step vm = (vm1, true) →
  Legacy.breakpoints vm1 = Legacy.breakpoints vm.
Proof.
  unfold Legacy.step.
  destruct (bool_decide _); [done|].
  destruct (Legacy.breakpoints (Legacy.x86_step vm) !! _); [done|].
  intros [= <-]. apply legacy_x86_step_breakpoints.
Qed.

Lemma legacy_step_stop vm vm1 :
  Legacy.step vm = (vm1, false) →
  let v := Legacy.x86_step vm in
  Legacy.x86 vm1 = Legacy.x86 v ∧
  Legacy.exitCode vm1 = Legacy.exitCode v ∧
  (Legacy.exitCode v ≠ None → Legacy.breakpoints vm1 = Legacy.breakpoints vm) ∧
  (Legacy.exitCode v = None →
   ∃ bp, Legacy.breakpoints vm !! Legacy.eip (Legacy.x86 v) = Some bp ∧
         Legacy.breakpoints vm1
         = if truthy (Legacy.temporary bp)
           then delete (Legacy.addr bp) (Legacy.breakpoints vm)
           else Legacy.breakpoints vm).
Proof.
  intros Hstep v. unfold Legacy.step in Hstep. fold v in Hstep.
  pose proof (legacy_x86_step_breakpoints vm) as Hb. fold v in Hb.
  destruct (bool_decide_reflect (Legacy.exitCode v ≠ None)) as [Hx|Hx].
  - injection Hstep as <-. split_and!; [done|done|done|done].
  - assert (Legacy.exitCode v = None) as Hnone
      by (by destruct (Legacy.exitCode v); [destruct Hx|]).
    rewrite Hb in Hstep.
    destruct (Legacy.breakpoints vm !! Legacy.eip (Legacy.x86 v))
      as [bp|] eqn:Hbp; [|done].
    injection Hstep as <-. split_and!.
    + by destruct (truthy _).
    + by destruct (truthy _).
    + done.
    + intros _. exists bp. split; [done|].
      destruct (truthy _); [reflexivity|exact Hb].
Qed.

Lemma legacy_run_last fuel vm vm' :
  LegacyPage.run fuel vm = Some vm' →
  ∃ vm0, Legacy.breakpoints vm0 = Legacy.breakpoints vm ∧
         Legacy.step vm0 = (vm', false).
Proof.
  revert vm. induction fuel as [|fuel IH]; intros vm; [done|].
  cbn [LegacyPage.run].
  destruct (Legacy.step vm) as [vm1 [|]] eqn:Hstep.
  - intros Hrun. destruct (IH vm1 Hrun) as (vm0 & Hb & Hlast).
    exists vm0. split; [|done].
    by rewrite Hb, (legacy_step_continue vm vm1 Hstep).
  - intros [= <-]. by exists vm.
Qed.

(** X17.  The loop of [Page.run] ends at the first step that reports
    "stopped", and with the session that step leaves: it returns after at
    most [fuel] steps exactly when some step within them stops and all
    steps before it say "keep going". *)
Theorem legacy_run_first_stop fuel vm vm' :
  LegacyPage.run fuel vm = Some vm' ↔
  ∃ n, n < fuel ∧
       (∀ k, k < n → (Legacy.step (legacy_steps k vm)).2 = true) ∧
       Legacy.step (legacy_steps n vm) = (vm', false).
Proof.
  revert vm. induction fuel as [|fuel IH]; intros vm.
  { split; [done|]. intros (n & Hn & _). lia. }
  cbn [LegacyPage.run].
  destruct (Legacy.step vm) as [vm1 [|]] eqn:Hstep.
  - rewrite IH. split.
    + intros (n & Hn & Hgo & Hstop). exists (S n). split; [lia|].
      cbn [legacy_steps]. rewrite Hstep. cbn [fst]. split; [|done].
      intros [|k] Hk; cbn [legacy_steps]; [by rewrite Hstep|].
      rewrite Hstep. apply Hgo. lia.
    + intros ([|n] & Hn & Hgo & Hstop).
      { cbn [legacy_steps] in Hstop. congruence. }
      cbn [legacy_steps] in Hstop. rewrite Hstep in Hstop.
      exists n. split; [lia|]. split; [|done].
      intros k Hk. specialize (Hgo (S k) ltac:(lia)).
      cbn [legacy_steps] in Hgo. by rewrite Hstep in Hgo.
  - split.
    + intros [= <-]. exists 0. split; [lia|]. split; [intros k; lia|done].
    + intros ([|n] & Hn & Hgo & Hstop).
      * cbn [legacy_steps] in Hstop. congruence.
      * specialize (Hgo 0 ltac:(lia)). cbn [legacy_steps] in Hgo.
        by rewrite Hstep in Hgo.
Qed.

(** X18.  Run-to-address in the earlier page: when the loop ends on [a]
    with the program still running, the temporary breakpoint is gone, and
    with it any breakpoint the table had at [a] before; the rest of the
    table is as it was. *)
Theorem legacy_runTo_arrives fuel a vm vm' :
  LegacyPage.runTo fuel a vm = Some vm' →
  Legacy.exitCode vm' = None →
  Legacy.eip (Legacy.x86 vm') = a →
  Legacy.breakpoints vm' = delete a (Legacy.breakpoints vm).
Proof.
  intros Hrun Hcode Hip.
  destruct (legacy_run_last _ _ _ Hrun) as (vm0 & Hb & Hlast).
  destruct (legacy_step_stop _ _ Hlast) as (Hx & He & _ & Hhit).
  rewrite Hcode in He. destruct (Hhit (eq_sym He)) as (bp & Hbp & ->).
  cbn in Hb. rewrite <-Hx, Hip, Hb, lookup_insert_eq in Hbp.
  injection Hbp as <-. cbn. by rewrite Hb, delete_insert_eq.
Qed.

(** X19.  Run-to-address in the earlier page: when the program exits
    before the loop stops at a breakpoint, the temporary breakpoint is
    still in the table afterwards. *)
Theorem legacy_runTo_exit fuel a vm vm' :
  LegacyPage.runTo fuel a vm = Some vm' →
  Legacy.exitCode vm' ≠ None →
  Legacy.breakpoints vm'
  = <[a := {| Legacy.addr := a; Legacy.temporary := Some true |}]>
      (Legacy.breakpoints vm).
Proof.
  intros Hrun Hcode.
  destruct (legacy_run_last _ _ _ Hrun) as (vm0 & Hb & Hlast).
  destruct (legacy_step_stop _ _ Hlast) as (_ & He & Hexit & _).
  rewrite He in Hcode. by rewrite (Hexit Hcode), Hb.
Qed.

End LegacyPageFacts.

Lemma legacy_runTo_arrives_witness :
  Legacy.breakpoints
    {| Legacy.x86 := 2%Z; Legacy.breakpoints := ∅;
       Legacy.exitCode := None |}
  = delete 2%Z (Legacy.breakpoints Samples.legacy_fresh).
Proof.
  apply (@legacy_runTo_arrives Z Samples.legacy_quiet 5 2
           Samples.legacy_fresh); reflexivity.
Defined.

Lemma legacy_runTo_exit_witness :
  Legacy.breakpoints
    {| Legacy.x86 := 1%Z;
       Legacy.breakpoints :=
         <[2%Z := {| Legacy.addr := 2; Legacy.temporary := Some true |}]> ∅;
       Legacy.exitCode := Some 3%Z |}
  = <[2%Z := {| Legacy.addr := 2; Legacy.temporary := Some true |}]>
      (Legacy.breakpoints Samples.legacy_fresh).
Proof.
  apply (@legacy_runTo_exit Z Samples.legacy_exits_at_0 5 2
           Samples.legacy_fresh).
  - reflexivity.
  - discriminate.
Defined.

(** ** The stack panel *)

Lemma getUint32_in_range memory a :
  (0 ≤ a)%Z → (a + 4 ≤ Z.of_nat (length memory))%Z →
  getUint32 memory a = Ok (le_value (take 4 (drop (Z.to_nat a) memory))).
Proof.
  intros H0 H4. unfold getUint32.
  destruct (Z.ltb_spec a 0); [lia|].
  destruct (Z.ltb_spec (Z.of_nat (length memory)) (a + 4)); [lia|done].
Qed.

Lemma getUint32_result memory a :
  (∃ v, getUint32 memory a = Ok v ∧
        (0 ≤ a)%Z ∧ (a + 4 ≤ Z.of_nat (length memory))%Z) ∨
  getUint32 memory a = Throw RangeError.
Proof.
  unfold getUint32.
  destruct (Z.ltb_spec a 0); [by right|].
  destruct (Z.ltb_spec (Z.of_nat (length memory)) (a + 4)); [by right|].
  left. eexists. split; [done|lia].
Qed.

Lemma rows_closed n fuel esp memory labels a :
  n ≤ fuel → (a + 4 * Z.of_nat n = esp + 0x20)%Z →
  (0 ≤ a)%Z → (esp + 0x20 ≤ Z.of_nat (length memory))%Z →
  Stack.rows fuel esp memory labels a
  = Ok ((λ i : nat, stack_row esp memory labels (a + 4 * Z.of_nat i)%Z)
          <$> seq 0 n).
Proof.
  revert fuel a. induction n as [|n IH]; intros fuel a Hfuel Hend H0 Hlen.
  - destruct fuel; cbn; by destruct (Z.ltb_spec a (esp + 32)); try lia.
  - destruct fuel as [|fuel]; [lia|]. cbn [Stack.rows].
    destruct (Z.ltb_spec a (esp + 32)); [|lia].
    rewrite getUint32_in_range by lia.
    rewrite (IH fuel (a + 4)%Z) by lia.
    cbn [seq fmap list_fmap]. rewrite <-fmap_S_seq, <-list_fmap_compose.
    f_equal. f_equal.
    + unfold stack_row. by rewrite Z.add_0_r.
    + apply list_fmap_ext. intros _ i _. cbn. f_equal. lia.
Qed.

Lemma rows_result fuel esp memory labels a :
  (∃ rs, Stack.rows fuel esp memory labels a = Ok rs) ∨
  Stack.rows fuel esp memory labels a = Throw RangeError.
Proof.
  revert a. induction fuel as [|fuel IH]; intros a; cbn [Stack.rows].
  - left. destruct (_ <? _)%Z; by eexists.
  - destruct (_ <? _)%Z; [|by left; eexists].
    destruct (getUint32_result memory a) as [(v & -> & _)| ->]; [|by right].
    destruct (IH (a + 4)%Z) as [(rs & ->)| ->]; [left; by eexists|by right].
Qed.

Lemma rows_ok_bounds n fuel esp memory labels a rs :
  S n ≤ fuel → (a + 4 * Z.of_nat (S n) = esp + 0x20)%Z →
  Stack.rows fuel esp memory labels a = Ok rs →
  (0 ≤ a)%Z ∧ (esp + 0x20 ≤ Z.of_nat (length memory))%Z.
Proof.
  revert fuel a rs. induction n as [|n IH]; intros fuel a rs Hfuel Hend;
    (destruct fuel as [|fuel]; [lia|]); cbn [Stack.rows];
    (destruct (Z.ltb_spec a (esp + 32)); [|lia]);
    (destruct (getUint32_result memory a) as [(v & -> & H0 & H4)| ->];
       [|done]).
  - intros _. lia.
  - destruct (Stack.rows fuel esp memory labels (a + 4)) as [rs'|e] eqn:Hrest;
      [|done].
    intros _. destruct (IH fuel (a + 4)%Z rs') as [_ Hlen]; [lia|lia|done|].
    lia.
Qed.


(** X21.  The stack panel fails, with a [RangeError] from the memory
    view, exactly when the window of sixteen bytes below [esp] and
    thirty-two above does not lie inside the memory. *)
Theorem render_out_of_range esp memory labels :
  Stack.render esp memory labels = Throw RangeError
  ↔ ¬ ((0x10 ≤ esp)%Z ∧ (esp + 0x20 ≤ Z.of_nat (length memory))%Z).
Proof.
  unfold Stack.render. split.
  - intros Hthrow [Hlo Hhi]. by rewrite (rows_closed 12) in Hthrow by lia.
  - intros Hout.
    destruct (rows_result (Z.to_nat (esp + 32 - (esp - 16))) esp memory labels
                (esp - 16)) as [(rs & Hok)|Hthrow]; [|done].
    destruct Hout.
    apply (rows_ok_bounds 11) in Hok; lia.
Qed.


(** ** Labels *)

Lemma split_nonempty sep s : split sep s ≠ [].
Proof.
  destruct s as [|c s]; [done|]. cbn [split].
  destruct (bool_decide _); [done|]. by destruct (split sep s).
Qed.

Lemma split_snoc sep s :
  split sep (s +:+ String sep "") = split sep s ++ [""].
Proof.
  induction s as [|c s IH].
  - change (split sep (String sep "") = [""] ++ [""]). cbn [split].
    by rewrite bool_decide_eq_true_2.
  - change (split sep (String c (s +:+ String sep ""))
            = split sep (String c s) ++ [""]).
    cbn [split]. rewrite IH. destruct (bool_decide _); [done|].
    pose proof (split_nonempty sep s). by destruct (split sep s).
Qed.

Section LabelFacts.

Context `{Globals}.

Implicit Types (labels : gmap number string) (line : string).

Lemma set_label_lookup labels line k :
  set_label labels line !! k
  = if decide (parseInt (split TAB line !! 1) 16 = k)
    then Some (default "" (split TAB line !! 0))
    else labels !! k.
Proof.
  unfold set_label. destruct (decide _) as [<-|Hne].
  - apply lookup_insert_eq.
  - by apply lookup_insert_ne.
Qed.

Lemma foldl_set_label_skip lines labels k :
  (∀ l, l ∈ lines → parseInt (split TAB l !! 1) 16 ≠ k) →
  foldl set_label labels lines !! k = labels !! k.
Proof.
  revert labels. induction lines as [|l lines IH]; intros labels Hk; [done|].
  cbn [foldl]. rewrite IH.
  - rewrite set_label_lookup. destruct (decide _) as [Heq|]; [|done].
    destruct (Hk l); [by left|done].
  - intros l' Hl'. apply Hk. by right.
Qed.

Lemma foldl_set_label_from lines labels k name :
  foldl set_label labels lines !! k = Some name →
  labels !! k = Some name ∨
  ∃ line, line ∈ lines ∧ k = parseInt (split TAB line !! 1) 16 ∧
          name = default "" (split TAB line !! 0).
Proof.
  revert labels. induction lines as [|l lines IH]; intros labels; [by left|].
  cbn [foldl]. intros Hk. destruct (IH _ Hk) as [Hl|(line & Hin & ? & ?)].
  - rewrite set_label_lookup in Hl.
    destruct (decide _) as [<-|]; [|by left].
    injection Hl as <-. right. exists l. split; [by left|done].
  - right. exists line. split; [by right|done].
Qed.

(** X22.  Every line of the label file gives its address a label, and of
    two lines for one address the later wins: a line that no later line
    repeats the address of labels that address with its first field. *)
Theorem loadLabels_line resp before line after :
  ok resp = true →
  split LF (text resp) = before ++ line :: after →
  (∀ l, l ∈ after →
     parseInt (split TAB l !! 1) 16 ≠ parseInt (split TAB line !! 1) 16) →
  loadLabels resp !! parseInt (split TAB line !! 1) 16
  = Some (default "" (split TAB line !! 0)).
Proof.
  intros Hok Hlines Hlast. unfold loadLabels. rewrite Hok, Hlines. cbn [negb].
  rewrite foldl_app. cbn [foldl].
  rewrite (foldl_set_label_skip after _ _ Hlast), set_label_lookup.
  by rewrite decide_True.
Qed.

(** X23.  Nothing is invented: a label in the map comes from a response
    that was [ok], and is the first field of a line of its text, filed
    under what [parseInt] makes of the second. *)
Theorem loadLabels_from_lines resp k name :
  loadLabels resp !! k = Some name →
  ok resp = true ∧
  ∃ line, line ∈ split LF (text resp) ∧
          k = parseInt (split TAB line !! 1) 16 ∧
          name = default "" (split TAB line !! 0).
Proof.
  unfold loadLabels. destruct (ok resp); cbn [negb]; [|done].
  intros Hk. split; [done|].
  by destruct (foldl_set_label_from _ _ _ _ Hk) as [?|?].
Qed.

(** X24.  The line after the last newline counts too: a text that is
    empty or ends in a newline leaves an entry with the empty name, filed
    under what [parseInt] makes of a missing field. *)
Theorem loadLabels_last_line resp :
  ok resp = true →
  text resp = "" ∨ (∃ s, text resp = s +:+ String LF "") →
  loadLabels resp !! parseInt None 16 = Some "".
Proof.
  intros Hok Hend.
  assert (∃ before, split LF (text resp) = before ++ [""])
    as [before Hlines].
  { destruct Hend as [->|(s & ->)].
    - by exists [].
    - exists (split LF s). apply split_snoc. }
  unfold loadLabels. rewrite Hok, Hlines. cbn [negb].
  rewrite foldl_app. cbn [foldl]. by rewrite set_label_lookup, decide_True.
Qed.

End LabelFacts.

Lemma loadLabels_line_witness :
  @loadLabels Samples.globals Samples.two_lines !! 2%Z = Some "start".
Proof.
  apply (@loadLabels_line Samples.globals Samples.two_lines
           ["main" +:+ Samples.TAB_ +:+ "40"]
           ("start" +:+ Samples.TAB_ +:+ "41") [""]).
  - reflexivity.
  - reflexivity.
  - intros l Hl. apply list_elem_of_singleton in Hl as ->. discriminate.
Defined.

Lemma loadLabels_from_lines_witness :
  ok Samples.two_lines = true ∧
  ∃ line, line ∈ split LF (text Samples.two_lines) ∧
          2%Z = @parseInt Samples.globals (split TAB line !! 1) 16 ∧
          "start" = default "" (split TAB line !! 0).
Proof.
  apply (@loadLabels_from_lines Samples.globals Samples.two_lines 2%Z "start").
  reflexivity.
Defined.

Lemma loadLabels_last_line_witness :
  @loadLabels Samples.globals Samples.two_lines !! (-1)%Z = Some "".
Proof.
  apply (@loadLabels_last_line Samples.globals Samples.two_lines).
  - reflexivity.
  - right. by exists ("main" +:+ Samples.TAB_ +:+ "40" +:+ Samples.LF_
                      +:+ "start" +:+ Samples.TAB_ +:+ "41").
Defined.
